(** * rockpaperscissors.py: a two-player rock-paper-scissors match over the
      micro:bit radio.

    The program is embedded function by function.  Byte strings are
    [string]s (one [ascii] per byte), Python integers are [Z].  The
    hardware the program talks to (buttons, radio, millisecond clock,
    display) is a [World]: the answers the environment gives to the
    program's calls are scripts that are consumed in call order, and what
    the program emits (radio frames, display updates) is logged in order. *)

From Stdlib Require Import ZArith List String Ascii Bool Lia.
From Stdlib Require Import DecimalString DecimalZ.
Import ListNotations.
Open Scope string_scope.
Open Scope Z_scope.

(** ** The Python built-ins the program uses *)

Module Py.

(** [bytes] and [str] values over ASCII; [str(b, 'UTF-8')] and
    [bytes(s, 'UTF-8')] are the identity on them. *)
Definition bytes := string.

(** [str(n)] for an integer. *)
Definition str (n : Z) : string := NilZero.string_of_int (Z.to_int n).

(** [len(s)]. *)
Definition len (s : string) : Z := Z.of_nat (String.length s).

(** [s[i:j]] for literal bounds [0 <= i <= j]. *)
Definition slice (i j : nat) (s : string) : string := substring i (j - i) s.

(** [x in t] for a tuple of byte strings. *)
Definition mem (x : bytes) (t : list bytes) : bool := existsb (String.eqb x) t.

(** [t.index(x)]: position of the first element equal to [x]; [None]
    stands for the [ValueError] raised when there is none. *)
Fixpoint index (t : list bytes) (x : bytes) : option Z :=
  match t with
  | [] => None
  | y :: t' =>
      if (y =? x)%string then Some 0
      else option_map Z.succ (index t' x)
  end.

(** [l[i]] on a list: a negative [i] counts from the end; [None] stands
    for the [IndexError] raised outside [-len(l) <= i < len(l)]. *)
Definition getitem {A : Type} (l : list A) (i : Z) : option A :=
  let n := Z.of_nat (List.length l) in
  if i <? 0 then
    if i + n <? 0 then None else nth_error l (Z.to_nat (i + n))
  else nth_error l (Z.to_nat i).

(** [l[i] = v] for an index already known to be in range; an index out
    of range leaves the list as it is (the callers check with [getitem]
    first, where Python raises). *)
Fixpoint setitem {A : Type} (l : list A) (i : nat) (v : A) : list A :=
  match l, i with
  | [], _ => []
  | _ :: l', O => v :: l'
  | x :: l', S i' => x :: setitem l' i' v
  end.

(** The value of one base-16 digit, in either case. *)
Definition hex_digit_value (c : ascii) : option Z :=
  let n := Z.of_N (N_of_ascii c) in
  if (48 <=? n) && (n <=? 57) then Some (n - 48)
  else if (97 <=? n) && (n <=? 102) then Some (n - 87)
  else if (65 <=? n) && (n <=? 70) then Some (n - 55)
  else None.

Fixpoint int16_from (acc : Z) (s : string) : option Z :=
  match s with
  | EmptyString => Some acc
  | String c s' =>
      match hex_digit_value c with
      | Some d => int16_from (16 * acc + d) s'
      | None => None
      end
  end.

(** [int(s, 16)] on strings of hexadecimal digits; [None] stands for
    [ValueError].  Python also accepts a sign, a [0x] prefix and
    surrounding white space: those forms are outside the digit strings
    modelled here and are answered [None]. *)
Definition int16 (s : string) : option Z :=
  match s with
  | EmptyString => None
  | _ => int16_from 0 s
  end.

(** [hex(n)[-1]]: the last character of the hexadecimal rendering of
    [n], i.e. the lower-case digit of [|n| mod 16]. *)
Definition hex_last (n : Z) : string :=
  slice (Z.to_nat (Z.abs n mod 16)) (S (Z.to_nat (Z.abs n mod 16)))
        "0123456789abcdef".

(** [int.from_bytes(b, 'little')]. *)
Fixpoint from_bytes_little (b : bytes) : Z :=
  match b with
  | EmptyString => 0
  | String c b' => Z.of_N (N_of_ascii c) + 256 * from_bytes_little b'
  end.

End Py.

Import Py.

(** ** The device and its environment *)

(** The images the program shows that are not characters. *)
Inductive image := ASLEEP | HAPPY | SAD | ALL_CLOCKS | screen_off.

Inductive glyph :=
| Img (i : image)
| Txt (s : string).

(** One call on [microbit.display]. *)
Inductive display_call :=
| Display_show (what : list glyph)
| Display_scroll (text : string)
| Display_clear.

Record World := mkWorld {
  button_a : list bool;        (* answers of button_a.was_pressed() *)
  button_b : list bool;        (* answers of button_b.was_pressed() *)
  rx : list (option bytes);    (* answers of radio.receive_bytes() *)
  clock : list Z;              (* answers of utime.ticks_ms() *)
  tx : list bytes;             (* frames given to radio.send_bytes, oldest first *)
  screen : list display_call;  (* calls on microbit.display, oldest first *)
  address : option Z           (* address set by radio.config *)
}.

Definition set_button_a (v : list bool) (w : World) : World :=
  mkWorld v (button_b w) (rx w) (clock w) (tx w) (screen w) (address w).
Definition set_button_b (v : list bool) (w : World) : World :=
  mkWorld (button_a w) v (rx w) (clock w) (tx w) (screen w) (address w).
Definition set_rx (v : list (option bytes)) (w : World) : World :=
  mkWorld (button_a w) (button_b w) v (clock w) (tx w) (screen w) (address w).
Definition set_clock (v : list Z) (w : World) : World :=
  mkWorld (button_a w) (button_b w) (rx w) v (tx w) (screen w) (address w).
Definition set_tx (v : list bytes) (w : World) : World :=
  mkWorld (button_a w) (button_b w) (rx w) (clock w) v (screen w) (address w).
Definition set_screen (v : list display_call) (w : World) : World :=
  mkWorld (button_a w) (button_b w) (rx w) (clock w) (tx w) v (address w).
Definition set_address (v : option Z) (w : World) : World :=
  mkWorld (button_a w) (button_b w) (rx w) (clock w) (tx w) (screen w) v.

Inductive exn := ValueError | IndexError.

(** How a call ends: it returns, an exception propagates, the board is
    reset, or the scripted environment (or the loop budget) ran out
    while the program was still running. *)
Inductive result (A : Type) :=
| Ok (a : A)
| Raised (e : exn)
| Rebooted
| Pending.

Arguments Ok {A} a.
Arguments Raised {A} e.
Arguments Rebooted {A}.
Arguments Pending {A}.

Definition M (A : Type) : Type := World -> result A * World.

Definition ret {A : Type} (a : A) : M A := fun w => (Ok a, w).

Definition bind {A B : Type} (c : M A) (k : A -> M B) : M B :=
  fun w =>
    match c w with
    | (Ok a, w') => k a w'
    | (Raised e, w') => (Raised e, w')
    | (Rebooted, w') => (Rebooted, w')
    | (Pending, w') => (Pending, w')
    end.

Notation "x <- c ;; k" := (bind c (fun x => k))
  (at level 61, c at next level, right associativity).
Notation "' pat <- c ;; k" := (bind c (fun x => match x with pat => k end))
  (at level 61, pat pattern, c at next level, right associativity).
Notation "c ;; k" := (bind c (fun _ => k))
  (at level 61, right associativity).

Definition raise {A : Type} (e : exn) : M A := fun w => (Raised e, w).
Definition pending {A : Type} : M A := fun w => (Pending, w).

(** An [option] answer of a built-in, with the exception it stands for. *)
Definition or_raise {A : Type} (e : exn) (o : option A) : M A :=
  match o with
  | Some a => ret a
  | None => raise e
  end.

Module microbit.

Definition display (d : display_call) : M unit :=
  fun w => (Ok tt, set_screen (screen w ++ [d]) w).

(** [microbit.sleep(ms)] only lets time pass; the time the program
    observes is the clock script's. *)
Definition sleep (ms : Z) : M unit := ret tt.

Definition button_a_was_pressed : M bool :=
  fun w =>
    match button_a w with
    | [] => (Pending, w)
    | p :: rest => (Ok p, set_button_a rest w)
    end.

Definition button_b_was_pressed : M bool :=
  fun w =>
    match button_b w with
    | [] => (Pending, w)
    | p :: rest => (Ok p, set_button_b rest w)
    end.

Definition reset {A : Type} : M A := fun w => (Rebooted, w).

End microbit.

Module radio.

Definition send_bytes (m : bytes) : M unit :=
  fun w => (Ok tt, set_tx (tx w ++ [m]) w).

Definition receive_bytes : M (option bytes) :=
  fun w =>
    match rx w with
    | [] => (Pending, w)
    | m :: rest => (Ok m, set_rx rest w)
    end.

Definition config (addr : Z) : M unit :=
  fun w => (Ok tt, set_address (Some addr) w).

End radio.

Module utime.

Definition ticks_ms : M Z :=
  fun w =>
    match clock w with
    | [] => (Pending, w)
    | t :: rest => (Ok t, set_clock rest w)
    end.

End utime.

(** [for n in range(times): body]. *)
Fixpoint for_range (times : nat) (body : M unit) : M unit :=
  match times with
  | O => ret tt
  | S times' => body ;; for_range times' body
  end.

(** ** Global constants *)

Definition RPS : list bytes := ["R"; "P"; "S"].
Definition MYID : bytes := "2f".

(** ** The program *)

(** [create_address(player_id, opp_id)]; [None] is the [ValueError] of
    [int(_, 16)]. *)
Definition create_address (player_id opp_id : bytes) : option bytes :=
  let player_s := player_id in
  let opp_s := opp_id in
  match int16 player_s with
  | None => None
  | Some p =>
      match int16 opp_s with
      | None => None
      | Some o =>
          if p >? o then Some (opp_s ++ player_s)
          else Some (player_s ++ opp_s)
      end
  end.

(** [send_choice(play, round_number)]: transmit, then return the time. *)
Definition send_choice (play : bytes) (round_number : Z) : M Z :=
  let message := play ++ str round_number in
  radio.send_bytes message ;;
  utime.ticks_ms.

Definition send_acknowledgement (round_number : Z) : M unit :=
  let message := "X" ++ str round_number in
  radio.send_bytes message.

(** [parse_message(round_number)]: the received frame if it is a play or
    an acknowledgement for this round, [None] otherwise; a play is
    acknowledged on the way. *)
Definition parse_message (round_number : Z) : M (option bytes) :=
  message <- radio.receive_bytes ;;
  match message with
  | None => ret None
  | Some m =>
      if negb (len m =? 2) || negb (slice 1 2 m =? str round_number)%string
      then ret None
      else if mem (slice 0 1 m) RPS then
        send_acknowledgement round_number ;;
        ret (Some m)
      else if (slice 0 1 m =? "X")%string then ret (Some m)
      else ret None
  end.

(** [resolve(my, opp)]: the "list indexing tricks" as written, negative
    indices included. *)
Definition resolve (my opp : bytes) : M (Z * Z) :=
  i <- or_raise ValueError (index RPS my) ;;
  j <- or_raise ValueError (index RPS opp) ;;
  let diff := i - j in
  result <- or_raise IndexError (getitem [0; 1; 0] diff) ;;
  opp_score <- or_raise IndexError (getitem [0; 0; 1] diff) ;;
  let faces := [ASLEEP; HAPPY; SAD] in
  face <- or_raise IndexError (getitem faces diff) ;;
  microbit.display (Display_show [Img face]) ;;
  microbit.sleep 1000 ;;
  ret (result, opp_score).

(** [display_score(my_score, opp_score, round_number, times)]: each
    verdict loop resets the board in its first iteration. *)
Definition display_score (my_score opp_score round_number : Z) (times : nat)
  : M unit :=
  microbit.display
    (Display_show (List.concat (repeat [Img screen_off; Txt (str my_score)] times))) ;;
  let announce (text : string) : M unit :=
    for_range times
      (microbit.display (Display_scroll text) ;;
       microbit.display (Display_show [Img screen_off]) ;;
       microbit.sleep 333 ;;
       microbit.reset) in
  if round_number =? 2 then
    if my_score =? 2 then announce "You win!!"
    else if opp_score =? 2 then announce "You Lose!"
    else ret tt
  else if round_number =? 3 then
    if my_score >? opp_score then announce "You win!!"
    else if opp_score >? my_score then announce "You Lose!"
    else if opp_score =? my_score then announce "You drew!"
    else ret tt
  else ret tt.

(** The [while idx < len(num)] loop of [choose_opponent], run for at most
    [budget] iterations. *)
Fixpoint choose_opponent_loop (budget : nat) (num : list Z) (idx : Z)
  : M (list Z) :=
  if idx <? Z.of_nat (List.length num) then
    match budget with
    | O => pending
    | S budget' =>
        microbit.sleep 100 ;;
        d <- or_raise IndexError (getitem num idx) ;;
        microbit.display (Display_show [Txt (hex_last d)]) ;;
        a <- microbit.button_a_was_pressed ;;
        num <- (if a : bool then
                  d <- or_raise IndexError (getitem num idx) ;;
                  ret (setitem num (Z.to_nat idx) ((d + 1) mod 16))
                else ret num) ;;
        b <- microbit.button_b_was_pressed ;;
        if b : bool then
          microbit.display (Display_show [Txt "X"]) ;;
          choose_opponent_loop budget' num (idx + 1)
        else choose_opponent_loop budget' num idx
    end
  else ret num.

Definition choose_opponent (budget : nat) : M bytes :=
  let num := [0; 0] in
  let idx := 0 in
  num <- choose_opponent_loop budget num idx ;;
  microbit.display Display_clear ;;
  ret (String.concat "" (map hex_last num)).

(** The [while True] loop of [choose_play], run for at most [budget]
    iterations. *)
Fixpoint choose_play_loop (budget : nat) (num : Z) (play : string) : M string :=
  match budget with
  | O => pending
  | S budget' =>
      microbit.sleep 100 ;;
      a <- microbit.button_a_was_pressed ;;
      '(num, play) <-
        (if a : bool then
           let num := num + 1 in
           let selection := num mod 3 in
           if selection =? 2 then
             microbit.display (Display_show [Txt "R"]) ;; ret (num, "R")
           else if selection =? 0 then
             microbit.display (Display_show [Txt "P"]) ;; ret (num, "P")
           else
             microbit.display (Display_show [Txt "S"]) ;; ret (num, "S")
         else ret (num, play)) ;;
      b <- microbit.button_b_was_pressed ;;
      if b : bool then
        for_range 2
          (microbit.display Display_clear ;;
           microbit.sleep 300 ;;
           microbit.display (Display_show [Txt play]) ;;
           microbit.sleep 300) ;;
        microbit.display Display_clear ;;
        ret play
      else choose_play_loop budget' num play
  end.

Definition choose_play (budget : nat) : M bytes :=
  let num := 1 in
  let play := "" in
  choose_play_loop budget num play.

(** [if message:] on what [parse_message] returned. *)
Definition truthy (message : option bytes) : bool :=
  match message with
  | None => false
  | Some m => negb (len m =? 0)
  end.

(** The local variables of [main] that the round loop reads and writes. *)
Record Locals := mkLocals {
  your_score : Z;
  opp_score : Z;
  round_number : Z;
  choice : bytes;
  send_time : Z;
  acknowledged : bool;
  resolved : bool
}.

(** MicroPython's [utime.ticks_diff], the signed difference of two tick
    counts on the 30-bit wrapping millisecond counter; the concrete runs
    below use it. *)
Definition ticks_diff_wrap (a b : Z) : Z :=
  (a - b + 2 ^ 29) mod 2 ^ 30 - 2 ^ 29.

Section Main.

(** [utime.ticks_diff] belongs to the platform; the program is modelled
    for any such function. *)
Variable ticks_diff : Z -> Z -> Z.

(** The first half of the body of the round loop: "filtering messages
    so that only one play and one acknowledgement is processed per
    round". *)
Definition process_message (l : Locals) (message : option bytes) : M Locals :=
  if truthy message then
    let action := slice 0 1 (match message with Some m => m | None => "" end) in
    if mem action RPS && (Bool.eqb (resolved l) false) then
      '(my_result, opp_result) <- resolve (choice l) action ;;
      let l := mkLocals (your_score l + my_result)
                        (opp_score l + opp_result)
                        (round_number l) (choice l) (send_time l)
                        (acknowledged l) true in
      display_score (your_score l) (opp_score l) (round_number l) 3 ;;
      ret l
    else if (action =? "X")%string && (Bool.eqb (acknowledged l) false) then
      ret (mkLocals (your_score l) (opp_score l) (round_number l)
                    (choice l) (send_time l) true (resolved l))
    else ret l
  else ret l.

(** The second half: "resends message if not acknowledged and time has
    passed". *)
Definition resend_if_due (l : Locals) : M Locals :=
  if Bool.eqb (acknowledged l) false then
    current_time <- utime.ticks_ms ;;
    if ticks_diff current_time (send_time l) >? 2000 then
      t <- send_choice (choice l) (round_number l) ;;
      ret (mkLocals (your_score l) (opp_score l) (round_number l)
                    (choice l) t (acknowledged l) (resolved l))
    else ret l
  else ret l.

(** The body of [while not (acknowledged and resolved)]. *)
Definition round_body (l : Locals) : M Locals :=
  message <- parse_message (round_number l) ;;
  l <- process_message l message ;;
  resend_if_due l.

(** [while not (acknowledged and resolved)], for at most [budget]
    iterations. *)
Fixpoint round_loop (budget : nat) (l : Locals) : M Locals :=
  if negb (acknowledged l && resolved l) then
    match budget with
    | O => pending
    | S budget' => l <- round_body l ;; round_loop budget' l
    end
  else ret l.

(** The outer [while True] of [main], for at most [budget] rounds; every
    loop inside a round has the same budget. *)
Fixpoint match_loop (budget rounds : nat)
                    (your_score opp_score round_number : Z) : M unit :=
  match rounds with
  | O => pending
  | S rounds' =>
      microbit.display (Display_scroll ("Round: " ++ str round_number)) ;;
      microbit.display (Display_scroll ("Your Score: " ++ str your_score)) ;;
      choice <- choose_play budget ;;
      send_time <- send_choice choice round_number ;;
      microbit.display (Display_show [Img ALL_CLOCKS]) ;;
      let acknowledged := false in
      let resolved := false in
      '(mkLocals your_score opp_score _ _ _ _ _) <-
        round_loop budget
          (mkLocals your_score opp_score round_number choice send_time
                    acknowledged resolved) ;;
      let round_number := round_number + 1 in
      match_loop budget rounds' your_score opp_score round_number
  end.

(** [main], every loop of which runs for at most [budget] iterations.
    [radio.on()] and the [power] setting leave no trace in the world. *)
Definition main (budget : nat) : M unit :=
  opponent_id <- choose_opponent budget ;;
  radio_address <- or_raise ValueError (create_address MYID opponent_id) ;;
  let decimal_number := from_bytes_little radio_address in
  radio.config decimal_number ;;
  let your_score := 0 in
  let opp_score := 0 in
  let round_number := 1 in
  match_loop budget budget your_score opp_score round_number.

End Main.

(** ** Vocabulary of the statements *)

(** The world a computation leaves behind. *)
Definition after {A : Type} (c : M A) (w : World) : World := snd (c w).

(** The three moves as the specification names them, and the byte each is
    sent as. *)
Inductive Move := Rock | Paper | Scissors.

Definition symbol (m : Move) : bytes :=
  match m with
  | Rock => "R"
  | Paper => "P"
  | Scissors => "S"
  end.

(** Standard precedence, in the specification's words: Rock beats
    Scissors, Scissors beats Paper, Paper beats Rock. *)
Definition beats (a b : Move) : bool :=
  match a, b with
  | Rock, Scissors | Scissors, Paper | Paper, Rock => true
  | _, _ => false
  end.

(** The points the specification awards to (own, opponent). *)
Definition standard_points (own opp : Move) : Z * Z :=
  if beats own opp then (1, 0)
  else if beats opp own then (0, 1)
  else (0, 0).

(** The ASCII decimal digit of [d]. *)
Definition digit (d : Z) : ascii := ascii_of_N (Z.to_N (48 + d)).

(** A participant id is what [choose_opponent] assembles: the renderings
    [hex(n)[-1]] of two numbers kept below 16. *)
Definition participant_id (s : bytes) : Prop :=
  exists d1 d2 : Z,
    0 <= d1 < 16 /\ 0 <= d2 < 16 /\ s = hex_last d1 ++ hex_last d2.

(** A call of [resolve] leaves one face on the display log and nothing
    else does: their number counts the calls. *)
Definition is_face (d : display_call) : bool :=
  match d with
  | Display_show [Img ASLEEP] | Display_show [Img HAPPY]
  | Display_show [Img SAD] => true
  | _ => false
  end.

Definition resolutions (w : World) : nat :=
  List.length (filter is_face (screen w)).

(** The frames [send_choice] and [send_acknowledgement] put on the air. *)
Definition move_frame (play : bytes) (round_number : Z) : bytes :=
  play ++ str round_number.

Definition ack_frame (round_number : Z) : bytes :=
  "X" ++ str round_number.

(** The world after one more call on the display. *)
Definition shown (d : display_call) (w : World) : World :=
  set_screen (screen w ++ [d]) w.

(** The world after [display_score] has flashed the score, and after it
    has gone on to scroll a verdict and blank the screen (the board is
    reset right after). *)
Definition flashed (my_score : Z) (w : World) : World :=
  shown (Display_show [Img screen_off; Txt (str my_score);
                       Img screen_off; Txt (str my_score);
                       Img screen_off; Txt (str my_score)]) w.

Definition announced (verdict : string) (my_score : Z) (w : World) : World :=
  shown (Display_show [Img screen_off])
        (shown (Display_scroll verdict) (flashed my_score w)).

(** The local variables after the three assignments the round loop makes:
    a resolved play, a noted acknowledgement, a resend. *)
Definition scored (l : Locals) (points : Z * Z) : Locals :=
  mkLocals (your_score l + fst points) (opp_score l + snd points)
           (round_number l) (choice l) (send_time l) (acknowledged l) true.

Definition acked (l : Locals) : Locals :=
  mkLocals (your_score l) (opp_score l) (round_number l) (choice l)
           (send_time l) true (resolved l).

Definition resent (l : Locals) (t : Z) : Locals :=
  mkLocals (your_score l) (opp_score l) (round_number l) (choice l)
           t (acknowledged l) (resolved l).

(** The first byte of a received message, as the round loop slices it. *)
Definition action_of (message : option bytes) : bytes :=
  match message with
  | Some m => slice 0 1 m
  | None => ""
  end.

(** A computation that does not return stops the ones sequenced after
    it, with the same outcome. *)
Definition stops {A B : Type} (r : result A) (r' : result B) : Prop :=
  match r, r' with
  | Raised e, Raised e' => e = e'
  | Rebooted, Rebooted => True
  | Pending, Pending => True
  | _, _ => False
  end.

(** The scores and round number with which the outer loop of [main]
    can start a round: 0-0 in round 1, and after a round whose loop
    returned, the scores it returned in the next round. *)
Inductive round_entry (ticks_diff : Z -> Z -> Z) : Z -> Z -> Z -> Prop :=
| entry_first : round_entry ticks_diff 0 0 1
| entry_next (your opp r : Z) (budget : nat) (play : bytes) (t : Z)
             (w w' : World) (l' : Locals) :
    round_entry ticks_diff your opp r ->
    round_loop ticks_diff budget (mkLocals your opp r play t false false) w
      = (Ok l', w') ->
    round_entry ticks_diff (your_score l') (opp_score l') (r + 1).

(** The face that goes with a pair of points. *)
Definition face_for (points : Z * Z) : image :=
  if fst points =? 1 then HAPPY
  else if snd points =? 1 then SAD
  else ASLEEP.

(** What one press of button A does to the selection of [choose_play]:
    from nothing to R, then round R, P, S. *)
Definition next_play (play : string) : string :=
  if (play =? "R")%string then "P"
  else if (play =? "P")%string then "S"
  else "R".

(** The counter of [choose_play] and the play it has selected go
    together: the counter is 1 modulo 3 with nothing or S selected, 2
    with R, 0 with P. *)
Definition in_step (num : Z) (play : string) : Prop :=
  (num mod 3 = 1 /\ (play = "" \/ play = "S"))
  \/ (num mod 3 = 2 /\ play = "R")
  \/ (num mod 3 = 0 /\ play = "P").

(** The two digits of [choose_opponent] after [count] presses of button A
    on digit [idx]. *)
Definition dialled (idx : Z) (count : nat) (d1 d2 : Z) : list Z :=
  if idx =? 0 then [(d1 + Z.of_nat count) mod 16; d2]
  else [d1; (d2 + Z.of_nat count) mod 16].

(** What a selection loop consumed of the two button scripts between two
    worlds: as many polls of each button, the last poll of B the only
    one that found it pressed; and nothing of the radio or the clock. *)
Definition polled (used_a used_b : list bool) (w w' : World) : Prop :=
  button_a w = (used_a ++ button_a w')%list
  /\ button_b w = (used_b ++ button_b w')%list
  /\ List.length used_a = List.length used_b
  /\ used_b = (repeat false (List.length used_b - 1) ++ [true])%list
  /\ rx w' = rx w /\ tx w' = tx w /\ clock w' = clock w.

(** The number of polls of a button that found it pressed. *)
Definition presses (polls : list bool) : nat :=
  List.length (filter (fun p : bool => p) polls).

(** The ways a computation can stop without returning, other than being
    left waiting. *)
Inductive stop :=
| Raising (e : exn)
| Resetting.

(** [ends_in allowed post c]: wherever [c] is run, if it returns, what it
    returns satisfies [post]; if it raises or resets the board, that way
    of stopping is [allowed]; it may also be left waiting. *)
Definition ends_in {A : Type} (allowed : stop -> Prop) (post : A -> Prop)
           (c : M A) : Prop :=
  forall w : World,
    match fst (c w) with
    | Ok a => post a
    | Raised e => allowed (Raising e)
    | Rebooted => allowed Resetting
    | Pending => True
    end.

Definition no_stop (s : stop) : Prop := False.

Definition only_reset (s : stop) : Prop := s = Resetting.

Definition only_ValueError (s : stop) : Prop := s = Raising ValueError.

Definition reset_or_ValueError (s : stop) : Prop :=
  s = Resetting \/ s = Raising ValueError.

(** Sample worlds: nothing scripted and nothing logged; and the same with
    a radio that will answer [msgs] and a clock that will answer [ticks]. *)
Definition silent : World := mkWorld [] [] [] [] [] [] None.

Definition hearing (msgs : list (option bytes)) (ticks : list Z) : World :=
  set_clock ticks (set_rx msgs silent).

(** The local variables as a round starts them, at a score of 0-0. *)
Definition fresh_round (play : bytes) (r t : Z) : Locals :=
  mkLocals 0 0 r play t false false.

(** The end-to-end match of the specification, seen from the device
    whose id is [MYID]: the opponent id 1f is dialled (A once, B, A
    fifteen times, B); then Rock meets Scissors, Paper meets Paper and
    Scissors meets Rock, each play of the opponent followed by its
    acknowledgement of ours. *)
Definition scenario : World :=
  mkWorld
    ([true; false] ++ repeat true 15 ++ [false]
       ++ [true; false] ++ [true; true; false] ++ [true; true; true; false])
    ([false; true] ++ repeat false 15 ++ [true]
       ++ [false; true] ++ [false; false; true] ++ [false; false; false; true])
    [Some "S1"; Some "X1"; Some "P2"; Some "X2"; Some "R3"]
    [0; 10; 20; 30; 40]
    [] [] None.

(** A match in which the player confirms with button B before ever
    pressing button A, and the opponent plays Rock. *)
Definition unselected : World :=
  mkWorld [false; false; false] [true; true; true]
          [Some "R1"] [0] [] [] None.

(** ** Facts about the built-ins *)

Lemma str_one_char (n : Z) :
  String.length (str n) = 1%nat ->
  0 <= n <= 9 /\ str n = String (digit n) "".
Proof.
  unfold str. intros H.
  pose proof (DecimalZ.of_to n) as E.
  remember (Z.to_int n) as d eqn:Hd. clear Hd. subst n.
  destruct d as [u | u]; simpl in H.
  - destruct u as [ | u | u | u | u | u | u | u | u | u | u ];
      try (destruct u; simpl in H; try discriminate H);
      (split; [ vm_compute; split; discriminate | reflexivity ]).
  - destruct u; simpl in H; try discriminate H;
      destruct u; simpl in H; discriminate H.
Qed.

Lemma length_two (m : string) :
  String.length m = 2%nat -> exists c1 c2, m = String c1 (String c2 "").
Proof.
  destruct m as [ | c1 [ | c2 [ | c3 m ] ] ]; simpl; intros H;
    try discriminate H.
  now exists c1, c2.
Qed.

Lemma in_RPS (x : bytes) : In x RPS -> x = "R" \/ x = "P" \/ x = "S".
Proof.
  unfold RPS; simpl. intros [H | [H | [H | []]]]; auto.
Qed.

Lemma mem_In (x : bytes) (t : list bytes) : mem x t = true <-> In x t.
Proof.
  unfold mem. rewrite existsb_exists. split.
  - intros [y [Hy E]]. apply String.eqb_eq in E. now subst.
  - intros H. exists x. split; [ exact H | apply String.eqb_refl ].
Qed.

Lemma symbol_in_RPS (m : Move) : In (symbol m) RPS.
Proof. destruct m; simpl; auto. Qed.

Lemma in_RPS_symbol (x : bytes) : In x RPS -> exists m, x = symbol m.
Proof.
  intros H. destruct (in_RPS x H) as [E | [E | E]]; subst.
  - now exists Rock.
  - now exists Paper.
  - now exists Scissors.
Qed.

(** ** The outcome resolver *)

(** On two moves [resolve] returns the standard points and shows one face. *)
Lemma resolve_moves (a b : Move) (w : World) :
  exists face,
    In face [ASLEEP; HAPPY; SAD] /\
    resolve (symbol a) (symbol b) w =
      (Ok (standard_points a b), shown (Display_show [Img face]) w).
Proof.
  destruct a, b;
    [ exists ASLEEP | exists SAD | exists HAPPY
    | exists HAPPY | exists ASLEEP | exists SAD
    | exists SAD | exists HAPPY | exists ASLEEP ];
    (split; [ simpl; tauto | reflexivity ]).
Qed.

(** C2. [resolve] is total on the nine pairs of moves: it returns, and the
    pair it returns is the standard rock-paper-scissors award (Rock beats
    Scissors, Scissors beats Paper, Paper beats Rock, equal moves draw),
    one of (0,0), (1,0), (0,1); in particular R against S gives (1,0),
    S against R gives (0,1) and P against P gives (0,0). *)
Theorem resolve_total_standard (a b : Move) (w : World) :
  fst (resolve (symbol a) (symbol b) w) = Ok (standard_points a b)
  /\ In (standard_points a b) [(0, 0); (1, 0); (0, 1)]
  /\ fst (resolve "R" "S" w) = Ok (1, 0)
  /\ fst (resolve "S" "R" w) = Ok (0, 1)
  /\ fst (resolve "P" "P" w) = Ok (0, 0).
Proof.
  split; [ | split; [ | repeat split ] ].
  - destruct (resolve_moves a b w) as [face [_ E]]. now rewrite E.
  - destruct a, b; simpl; tauto.
Qed.

(** C8. Swapping the roles swaps the points: the own point of
    [resolve a b] is the opponent point of [resolve b a], for all nine
    pairs of moves. *)
Theorem resolve_role_swap (a b : Move) (w1 w2 : World) :
  exists p q : Z * Z,
    fst (resolve (symbol a) (symbol b) w1) = Ok p
    /\ fst (resolve (symbol b) (symbol a) w2) = Ok q
    /\ fst p = snd q.
Proof.
  exists (standard_points a b), (standard_points b a).
  destruct (resolve_moves a b w1) as [f1 [_ E1]].
  destruct (resolve_moves b a w2) as [f2 [_ E2]].
  rewrite E1, E2. repeat split. destruct a, b; reflexivity.
Qed.

(** ** Channel derivation *)

Ltac below16 d H :=
  let E := fresh "E" in
  assert (E : d = 0 \/ d = 1 \/ d = 2 \/ d = 3 \/ d = 4 \/ d = 5 \/ d = 6
              \/ d = 7 \/ d = 8 \/ d = 9 \/ d = 10 \/ d = 11 \/ d = 12
              \/ d = 13 \/ d = 14 \/ d = 15) by lia;
  clear H;
  repeat (destruct E as [E | E]; [ subst d | ]); [ .. | subst d ].

Lemma int16_participant (d1 d2 : Z) :
  0 <= d1 < 16 -> 0 <= d2 < 16 ->
  int16 (hex_last d1 ++ hex_last d2) = Some (16 * d1 + d2).
Proof.
  intros H1 H2. below16 d1 H1; below16 d2 H2; reflexivity.
Qed.

Lemma participant_id_value (s : bytes) :
  participant_id s ->
  exists v, int16 s = Some v /\
            forall s', participant_id s' -> int16 s' = Some v -> s' = s.
Proof.
  intros (d1 & d2 & H1 & H2 & ->).
  exists (16 * d1 + d2). split; [ now apply int16_participant | ].
  intros s' (e1 & e2 & K1 & K2 & ->) E.
  rewrite int16_participant in E by assumption.
  assert (E' : 16 * e1 + e2 = 16 * d1 + d2) by congruence.
  assert (e1 = d1) by lia. assert (e2 = d2) by lia. now subst.
Qed.

(** C3. Channel derivation is commutative on participant ids: both
    orders give the same address, the id of smaller base-16 value first
    and the larger second, the local id first when the two are equal; and
    the addresses of 0a with 2f, either way round, are 0a2f. *)
Theorem create_address_commutative (A B : bytes) :
  participant_id A -> participant_id B ->
  exists a b : Z,
    int16 A = Some a /\ int16 B = Some b
    /\ create_address A B = create_address B A
    /\ create_address A B = Some (if a <=? b then A ++ B else B ++ A)
    /\ create_address "0a" "2f" = Some "0a2f"
    /\ create_address "2f" "0a" = Some "0a2f".
Proof.
  intros HA HB.
  destruct (participant_id_value A HA) as (a & Ea & Ua).
  destruct (participant_id_value B HB) as (b & Eb & _).
  exists a, b. unfold create_address. rewrite Ea, Eb.
  repeat split.
  - destruct (Z.gtb_spec a b), (Z.gtb_spec b a); try reflexivity; try lia.
    assert (a = b) by lia. subst b.
    now rewrite (Ua B HB Eb).
  - destruct (Z.gtb_spec a b), (Z.leb_spec a b); try reflexivity; lia.
Qed.

Lemma create_address_commutative_witness :
  participant_id "0a" /\ participant_id "2f" /\
  exists a b : Z,
    int16 "0a" = Some a /\ int16 "2f" = Some b
    /\ create_address "0a" "2f" = create_address "2f" "0a"
    /\ create_address "0a" "2f" = Some (if a <=? b then "0a" ++ "2f" else "2f" ++ "0a")
    /\ create_address "0a" "2f" = Some "0a2f"
    /\ create_address "2f" "0a" = Some "0a2f".
Proof.
  assert (HA : participant_id "0a")
    by (exists 0, 10; repeat split; try lia).
  assert (HB : participant_id "2f")
    by (exists 2, 15; repeat split; try lia).
  split; [ exact HA | split; [ exact HB | ] ].
  exact (create_address_commutative "0a" "2f" HA HB).
Defined.

(** The ids are lower-case because [choose_opponent] renders them with
    [hex]; on ids that differ only in letter case [int(_, 16)] sees a tie
    and each side puts its own id first. *)
Remark create_address_letter_case :
  create_address "A0" "a0" = Some "A0a0" /\
  create_address "a0" "A0" = Some "a0A0".
Proof. split; reflexivity. Qed.

(** ** Running the monad backwards *)

Lemma bind_ok {A B : Type} (c : M A) (k : A -> M B) (w w' : World) (b : B) :
  bind c k w = (Ok b, w') ->
  exists a w1, c w = (Ok a, w1) /\ k a w1 = (Ok b, w').
Proof.
  unfold bind. destruct (c w) as [[a | e | | ] w1]; intros H;
    try discriminate H.
  now exists a, w1.
Qed.

Lemma bind_inv {A B : Type} (c : M A) (k : A -> M B) (w w' : World)
      (res : result B) :
  bind c k w = (res, w') ->
  (exists a w1, c w = (Ok a, w1) /\ k a w1 = (res, w'))
  \/ (exists r, c w = (r, w') /\ stops r res).
Proof.
  unfold bind. destruct (c w) as [[a | e | | ] w1]; intros H.
  - left. now exists a, w1.
  - right. injection H as <- <-. now exists (Raised e).
  - right. injection H as <- <-. now exists Rebooted.
  - right. injection H as <- <-. now exists Pending.
Qed.

(** ** The two selection procedures *)

Lemma choose_opponent_loop_digits (budget : nat) :
  forall (d1 d2 idx : Z) (w w' : World) (num' : list Z),
    0 <= d1 < 16 -> 0 <= d2 < 16 -> 0 <= idx ->
    choose_opponent_loop budget [d1; d2] idx w = (Ok num', w') ->
    exists e1 e2, num' = [e1; e2] /\ 0 <= e1 < 16 /\ 0 <= e2 < 16.
Proof.
  induction budget as [ | budget IH ]; intros d1 d2 idx w w' num' H1 H2 Hi H.
  - cbn [choose_opponent_loop] in H.
    destruct (idx <? Z.of_nat (List.length [d1; d2])); [ discriminate H | ].
    injection H as <- _. now exists d1, d2.
  - cbn [choose_opponent_loop] in H.
    destruct (Z.ltb_spec idx (Z.of_nat (List.length [d1; d2]))) as [Hlt | _];
      [ | injection H as <- _; now exists d1, d2 ].
    simpl in Hlt.
    apply bind_ok in H as (_ & w1 & _ & H).
    apply bind_ok in H as (d & w2 & _ & H).
    apply bind_ok in H as (_ & w3 & _ & H).
    apply bind_ok in H as (a & w4 & _ & H).
    apply bind_ok in H as (num & w5 & Hnum & H).
    assert (Hn : exists e1 e2, num = [e1; e2] /\ 0 <= e1 < 16 /\ 0 <= e2 < 16).
    { destruct a.
      - apply bind_ok in Hnum as (d' & w6 & Hd & Hnum).
        injection Hnum as <- _.
        assert (idx = 0 \/ idx = 1) as [-> | ->] by lia; simpl in Hd;
          injection Hd as <- _; simpl.
        + exists ((d1 + 1) mod 16), d2. repeat split; try lia;
            apply Z.mod_pos_bound; lia.
        + exists d1, ((d2 + 1) mod 16). repeat split; try lia;
            apply Z.mod_pos_bound; lia.
      - injection Hnum as <- _. now exists d1, d2. }
    destruct Hn as (e1 & e2 & -> & K1 & K2).
    apply bind_ok in H as (b & w6 & _ & H).
    destruct b.
    + apply bind_ok in H as (_ & w7 & _ & H).
      apply (IH e1 e2 (idx + 1) w7 w' num'); try assumption; lia.
    + apply (IH e1 e2 idx w6 w' num'); assumption.
Qed.

(** Whatever the buttons do, the id [choose_opponent] returns is a
    participant id. *)
Lemma choose_opponent_participant_id (budget : nat) (w w' : World) (s : bytes) :
  choose_opponent budget w = (Ok s, w') -> participant_id s.
Proof.
  unfold choose_opponent. intros H.
  apply bind_ok in H as (num & w1 & Hloop & H).
  apply bind_ok in H as (_ & w2 & _ & H).
  injection H as <- _.
  apply choose_opponent_loop_digits in Hloop as (e1 & e2 & -> & K1 & K2);
    try lia.
  exists e1, e2. repeat split; lia.
Qed.

Lemma MYID_participant_id : participant_id MYID.
Proof. exists 2, 15. repeat split; lia. Qed.

Lemma choose_play_loop_plays (budget : nat) :
  forall (num : Z) (play : string) (w w' : World) (p : string),
    In play [""; "R"; "P"; "S"] ->
    choose_play_loop budget num play w = (Ok p, w') ->
    In p [""; "R"; "P"; "S"].
Proof.
  induction budget as [ | budget IH ]; intros num play w w' p Hp H;
    cbn [choose_play_loop] in H; [ discriminate H | ].
  apply bind_ok in H as (_ & w1 & _ & H).
  apply bind_ok in H as (a & w2 & _ & H).
  apply bind_ok in H as ([num1 play1] & w3 & Hsel & H).
  assert (Hp1 : In play1 [""; "R"; "P"; "S"]).
  { destruct a.
    - destruct ((num + 1) mod 3 =? 2); [ | destruct ((num + 1) mod 3 =? 0) ];
        apply bind_ok in Hsel as (_ & w4 & _ & Hsel);
        injection Hsel as _ <- _; simpl; tauto.
    - now injection Hsel as _ <- _. }
  apply bind_ok in H as (b & w4 & _ & H).
  destruct b.
  - apply bind_ok in H as (_ & w5 & _ & H).
    apply bind_ok in H as (_ & w6 & _ & H).
    now injection H as <- _.
  - now apply (IH num1 play1 w4 w' p).
Qed.

(** [choose_play] returns one of the three moves, or the empty byte
    string it starts from. *)
Lemma choose_play_plays (budget : nat) (w w' : World) (p : bytes) :
  choose_play budget w = (Ok p, w') -> In p RPS \/ p = "".
Proof.
  intros H. apply choose_play_loop_plays in H; [ | simpl; tauto ].
  unfold RPS. simpl in *. intuition.
Qed.

(** ** The message codec *)

Lemma len_is_two (m : string) :
  (len m =? 2) = true <-> String.length m = 2%nat.
Proof. unfold len. rewrite Z.eqb_eq. lia. Qed.

(** [parse_message] when the radio has an answer: the function's own case
    analysis, with the world each case leaves. *)
Lemma parse_message_cases (r : Z) (w : World) (msg : option bytes)
      (rest : list (option bytes)) :
  rx w = msg :: rest ->
  parse_message r w =
    match msg with
    | None => (Ok None, set_rx rest w)
    | Some m =>
        if negb (len m =? 2) || negb (slice 1 2 m =? str r)%string
        then (Ok None, set_rx rest w)
        else if mem (slice 0 1 m) RPS
        then (Ok (Some m), set_tx (tx w ++ [ack_frame r]) (set_rx rest w))
        else if (slice 0 1 m =? "X")%string then (Ok (Some m), set_rx rest w)
        else (Ok None, set_rx rest w)
    end.
Proof.
  intros H. unfold parse_message, bind, radio.receive_bytes. rewrite H.
  destruct msg as [m | ]; [ | reflexivity ].
  destruct (negb (len m =? 2) || negb (slice 1 2 m =? str r)%string);
    [ reflexivity | ].
  destruct (mem (slice 0 1 m) RPS); [ reflexivity | ].
  destruct (slice 0 1 m =? "X")%string; reflexivity.
Qed.

Lemma parse_message_starved (r : Z) (w : World) :
  rx w = [] -> parse_message r w = (Pending, w).
Proof.
  intros H. unfold parse_message, bind, radio.receive_bytes. now rewrite H.
Qed.

Lemma parse_message_move (r : Z) (w : World) (m : bytes)
      (rest : list (option bytes)) :
  rx w = Some m :: rest ->
  String.length m = 2%nat -> slice 1 2 m = str r -> In (slice 0 1 m) RPS ->
  parse_message r w =
    (Ok (Some m), set_tx (tx w ++ [ack_frame r]) (set_rx rest w)).
Proof.
  intros H H2 Hr Hm. rewrite (parse_message_cases r w _ _ H).
  apply len_is_two in H2. apply mem_In in Hm.
  now rewrite H2, Hr, String.eqb_refl, Hm.
Qed.

Lemma parse_message_ack (r : Z) (w : World) (m : bytes)
      (rest : list (option bytes)) :
  rx w = Some m :: rest ->
  String.length m = 2%nat -> slice 1 2 m = str r -> slice 0 1 m = "X" ->
  parse_message r w = (Ok (Some m), set_rx rest w).
Proof.
  intros H H2 Hr Hm. rewrite (parse_message_cases r w _ _ H).
  apply len_is_two in H2.
  now rewrite H2, Hr, String.eqb_refl, Hm.
Qed.

Lemma str_digit (r : Z) : 0 <= r <= 9 -> str r = String (digit r) "".
Proof.
  intros H.
  assert (E : r = 0 \/ r = 1 \/ r = 2 \/ r = 3 \/ r = 4 \/ r = 5 \/ r = 6
              \/ r = 7 \/ r = 8 \/ r = 9) by lia.
  repeat (destruct E as [E | E]; [ subst r; reflexivity | ]).
  subst r; reflexivity.
Qed.

Lemma digit_inj (r r' : Z) :
  0 <= r <= 9 -> 0 <= r' <= 9 -> digit r = digit r' -> r = r'.
Proof.
  unfold digit. intros H H' E.
  apply (f_equal N_of_ascii) in E.
  rewrite !N_ascii_embedding in E by lia. lia.
Qed.

(** [send_choice] transmits the move frame, whether or not the clock
    answers afterwards. *)
Lemma send_choice_tx (play : bytes) (r : Z) (w : World) :
  tx (after (send_choice play r) w) = (tx w ++ [move_frame play r])%list.
Proof.
  unfold after, send_choice, bind, radio.send_bytes, utime.ticks_ms. simpl.
  destruct (clock w); reflexivity.
Qed.

(** C4. Codec round trip: for a move and a round from 1 to 9, the frame
    [send_choice] transmits is the move's byte followed by the ASCII digit
    of the round; [parse_message] for the same round accepts it as a move
    and hands back that frame, whose first byte is the move's symbol;
    [parse_message] for any other round from 1 to 9 returns [None]. *)
Theorem codec_round_trip (m : Move) (r : Z) (ws wr : World)
        (rest : list (option bytes)) :
  1 <= r <= 9 ->
  let frame := symbol m ++ String (digit r) "" in
  tx (after (send_choice (symbol m) r) ws) = (tx ws ++ [frame])%list
  /\ String.length frame = 2%nat
  /\ (rx wr = Some frame :: rest ->
      fst (parse_message r wr) = Ok (Some frame)
      /\ slice 0 1 frame = symbol m
      /\ In (slice 0 1 frame) RPS)
  /\ (forall r', 1 <= r' <= 9 -> r' <> r ->
      rx wr = Some frame :: rest ->
      parse_message r' wr = (Ok None, set_rx rest wr)).
Proof.
  intros Hr frame.
  assert (Hs : str r = String (digit r) "") by (apply str_digit; lia).
  assert (Hf : frame = move_frame (symbol m) r)
    by (unfold frame, move_frame; now rewrite Hs).
  assert (H2 : String.length frame = 2%nat) by (destruct m; reflexivity).
  assert (H0 : slice 0 1 frame = symbol m) by (destruct m; reflexivity).
  assert (H1 : slice 1 2 frame = String (digit r) "")
    by (destruct m; reflexivity).
  split; [ | split; [ exact H2 | split ] ].
  - now rewrite send_choice_tx, Hf.
  - intros Hrx. split; [ | split ].
    + rewrite (parse_message_move r wr frame rest); try assumption.
      * reflexivity.
      * now rewrite H1, Hs.
      * rewrite H0. apply symbol_in_RPS.
    + exact H0.
    + rewrite H0. apply symbol_in_RPS.
  - intros r' Hr' Hne Hrx.
    rewrite (parse_message_cases r' wr _ _ Hrx).
    rewrite H1, (str_digit r') by lia.
    destruct (String.eqb_spec (String (digit r) "") (String (digit r') ""))
      as [E | E].
    + exfalso. apply Hne. symmetry. apply digit_inj; try lia. congruence.
    + now rewrite orb_true_r.
Qed.

Lemma codec_round_trip_witness :
  1 <= 2 <= 9
  /\ tx (after (send_choice "P" 2) silent) = ["P2"]
  /\ fst (parse_message 2 (hearing [Some "P2"] [])) = Ok (Some "P2")
  /\ parse_message 3 (hearing [Some "P2"] []) = (Ok None, silent).
Proof.
  assert (H : 1 <= 2 <= 9) by lia.
  destruct (codec_round_trip Paper 2 silent (hearing [Some "P2"] []) [] H)
    as (Hs & _ & Hsame & Hother).
  split; [ exact H | split; [ exact Hs | split ] ].
  - apply Hsame. reflexivity.
  - apply Hother; [ lia | lia | reflexivity ].
Defined.

(** C5. [parse_message] returns [None], raising nothing and transmitting
    nothing, whenever the radio has no message, or the message is empty,
    or is not exactly two bytes long, or its second byte is not the
    decimal rendering of the expected round, or its first byte is neither
    a move symbol nor the acknowledgement marker.  This holds for every
    expected round number, so for every positive one. *)
Theorem parse_message_rejects (r : Z) (w : World) (msg : option bytes)
        (rest : list (option bytes)) :
  rx w = msg :: rest ->
  (msg = None
   \/ exists m, msg = Some m
                /\ (m = ""
                    \/ String.length m <> 2%nat
                    \/ slice 1 2 m <> str r
                    \/ (~ In (slice 0 1 m) RPS /\ slice 0 1 m <> "X"))) ->
  parse_message r w = (Ok None, set_rx rest w)
  /\ tx (set_rx rest w) = tx w.
Proof.
  intros Hrx Hbad. split; [ | reflexivity ].
  rewrite (parse_message_cases r w _ _ Hrx).
  destruct Hbad as [-> | (m & -> & Hbad)]; [ reflexivity | ].
  destruct (len m =? 2) eqn:E2; [ | reflexivity ].
  destruct (String.eqb_spec (slice 1 2 m) (str r)) as [Er | Er];
    [ | reflexivity ].
  apply len_is_two in E2. cbn [negb orb].
  destruct Hbad as [-> | [Hbad | [Hbad | [Hm Hx]]]];
    [ discriminate E2 | contradiction | contradiction | ].
  destruct (mem (slice 0 1 m) RPS) eqn:Em;
    [ apply mem_In in Em; contradiction | ].
  apply String.eqb_neq in Hx. now rewrite Hx.
Qed.

Lemma parse_message_rejects_witness :
  parse_message 1 (hearing [Some "R2"] []) = (Ok None, silent)
  /\ parse_message 1 (hearing [Some "R"] []) = (Ok None, silent)
  /\ parse_message 1 (hearing [Some "Q1"] []) = (Ok None, silent)
  /\ parse_message 1 (hearing [None] []) = (Ok None, silent).
Proof.
  split; [ | split; [ | split ] ].
  - apply (parse_message_rejects 1 (hearing [Some "R2"] []) (Some "R2") []);
      [ reflexivity | ].
    right. exists "R2". split; [ reflexivity | ].
    right. right. left. discriminate.
  - apply (parse_message_rejects 1 (hearing [Some "R"] []) (Some "R") []);
      [ reflexivity | ].
    right. exists "R". split; [ reflexivity | ].
    right. left. discriminate.
  - apply (parse_message_rejects 1 (hearing [Some "Q1"] []) (Some "Q1") []);
      [ reflexivity | ].
    right. exists "Q1". split; [ reflexivity | ].
    right. right. right. split; [ | discriminate ].
    intros H. apply in_RPS in H. destruct H as [H | [H | H]]; discriminate H.
  - apply (parse_message_rejects 1 (hearing [None] []) None []);
      [ reflexivity | now left ].
Defined.

(** C6. Every move frame [parse_message] accepts (two bytes, the second
    matching the expected round, the first a move symbol) makes it
    transmit exactly one frame before it returns: the acknowledgement, X
    followed by the decimal digit of the expected round.  An accepted
    acknowledgement frame and a rejected message transmit nothing. *)
Theorem parse_message_acknowledges (r : Z) (w : World) (msg : option bytes)
        (rest : list (option bytes)) :
  rx w = msg :: rest ->
  (forall m, msg = Some m -> String.length m = 2%nat ->
             slice 1 2 m = str r -> In (slice 0 1 m) RPS ->
     parse_message r w =
       (Ok (Some m), set_tx (tx w ++ [ack_frame r]) (set_rx rest w))
     /\ 0 <= r <= 9
     /\ ack_frame r = String "X" (String (digit r) ""))
  /\ (forall m, msg = Some m -> String.length m = 2%nat ->
                slice 1 2 m = str r -> slice 0 1 m = "X" ->
       parse_message r w = (Ok (Some m), set_rx rest w))
  /\ (fst (parse_message r w) = Ok None ->
       parse_message r w = (Ok None, set_rx rest w)).
Proof.
  intros Hrx. split; [ | split ].
  - intros m -> H2 Hr Hm. split.
    + now apply parse_message_move.
    + assert (H1 : String.length (str r) = 1%nat).
      { rewrite <- Hr. destruct (length_two m H2) as (c1 & c2 & ->).
        reflexivity. }
      destruct (str_one_char r H1) as [Hd Hs]. split; [ exact Hd | ].
      unfold ack_frame. now rewrite Hs.
  - intros m -> H2 Hr Hm. now apply parse_message_ack.
  - rewrite (parse_message_cases r w _ _ Hrx).
    destruct msg as [m | ]; [ | reflexivity ].
    destruct (negb (len m =? 2) || negb (slice 1 2 m =? str r)%string);
      [ reflexivity | ].
    destruct (mem (slice 0 1 m) RPS); [ discriminate | ].
    destruct (slice 0 1 m =? "X")%string; [ discriminate | reflexivity ].
Qed.

Lemma parse_message_acknowledges_witness :
  parse_message 1 (hearing [Some "S1"] []) =
    (Ok (Some "S1"), set_tx ["X1"] silent)
  /\ parse_message 1 (hearing [Some "X1"] []) = (Ok (Some "X1"), silent).
Proof.
  destruct (parse_message_acknowledges 1 (hearing [Some "S1"] [])
              (Some "S1") [] eq_refl) as (Hmove & _ & _).
  destruct (parse_message_acknowledges 1 (hearing [Some "X1"] [])
              (Some "X1") [] eq_refl) as (_ & Hack & _).
  split.
  - apply (Hmove "S1"); try reflexivity. simpl. tauto.
  - apply (Hack "X1"); reflexivity.
Defined.

(** ** Match termination *)

Lemma display_score_round_2 (my opp : Z) (w : World) :
  display_score my opp 2 3 w =
    if my =? 2 then (Rebooted, announced "You win!!" my w)
    else if opp =? 2 then (Rebooted, announced "You Lose!" my w)
    else (Ok tt, flashed my w).
Proof.
  unfold display_score. simpl.
  destruct (my =? 2); [ reflexivity | ].
  destruct (opp =? 2); reflexivity.
Qed.

Lemma display_score_round_3 (my opp : Z) (w : World) :
  display_score my opp 3 3 w =
    (Rebooted,
     announced (if my >? opp then "You win!!"
                else if opp >? my then "You Lose!" else "You drew!") my w).
Proof.
  unfold display_score. simpl.
  destruct (Z.gtb_spec my opp); [ reflexivity | ].
  destruct (Z.gtb_spec opp my); [ reflexivity | ].
  destruct (Z.eqb_spec opp my); [ reflexivity | lia ].
Qed.

Lemma display_score_other_round (my opp r : Z) (w : World) :
  r <> 2 -> r <> 3 -> display_score my opp r 3 w = (Ok tt, flashed my w).
Proof.
  intros H2 H3. unfold display_score.
  apply Z.eqb_neq in H2, H3. unfold bind. simpl. now rewrite H2, H3.
Qed.

(** The verdicts of [display_score] as [main] calls it, on the scores a
    match can show in round 2 (non-negative, two points at most between
    them) and on any scores in round 3. *)
Lemma display_score_verdicts (my opp : Z) (w : World) :
  (0 <= my -> 0 <= opp -> my + opp <= 2 ->
     (fst (display_score my opp 2 3 w) = Rebooted <-> 2 <= my \/ 2 <= opp)
     /\ (2 <= my ->
         display_score my opp 2 3 w = (Rebooted, announced "You win!!" my w))
     /\ (2 <= opp ->
         display_score my opp 2 3 w = (Rebooted, announced "You Lose!" my w))
     /\ (my < 2 -> opp < 2 ->
         display_score my opp 2 3 w = (Ok tt, flashed my w)))
  /\ fst (display_score my opp 3 3 w) = Rebooted
  /\ (my > opp ->
      display_score my opp 3 3 w = (Rebooted, announced "You win!!" my w))
  /\ (my < opp ->
      display_score my opp 3 3 w = (Rebooted, announced "You Lose!" my w))
  /\ (my = opp ->
      display_score my opp 3 3 w = (Rebooted, announced "You drew!" my w)).
Proof.
  split; [ intros Hm Ho Hs | ].
  - rewrite display_score_round_2.
    destruct (Z.eqb_spec my 2) as [E | E];
      [ | destruct (Z.eqb_spec opp 2) as [E' | E'] ]; simpl.
    + repeat split; intros; try reflexivity; lia.
    + repeat split; intros; try reflexivity; lia.
    + repeat split; intros; try reflexivity; try discriminate; lia.
  - rewrite display_score_round_3.
    destruct (Z.gtb_spec my opp); [ | destruct (Z.gtb_spec opp my) ];
      repeat split; intros; try reflexivity; lia.
Qed.

(** ** One pass through the round loop *)

Lemma index_outside_RPS (x : bytes) : ~ In x RPS -> index RPS x = None.
Proof.
  intros H. unfold RPS in *. cbn [index].
  destruct (String.eqb_spec "R" x) as [E | _];
    [ exfalso; apply H; now left | ].
  destruct (String.eqb_spec "P" x) as [E | _];
    [ exfalso; apply H; right; now left | ].
  destruct (String.eqb_spec "S" x) as [E | _];
    [ exfalso; apply H; right; right; now left | reflexivity ].
Qed.

(** [resolve] either awards the standard points and shows a face, or
    raises [ValueError] on an argument outside [RPS], before it has
    touched the display. *)
Lemma resolve_cases (my opp : bytes) (w : World) :
  (exists a b face,
      my = symbol a /\ opp = symbol b /\ In face [ASLEEP; HAPPY; SAD]
      /\ resolve my opp w =
           (Ok (standard_points a b), shown (Display_show [Img face]) w))
  \/ ((~ In my RPS \/ ~ In opp RPS)
      /\ resolve my opp w = (Raised ValueError, w)).
Proof.
  destruct (in_dec string_dec my RPS) as [Hm | Hm];
    [ destruct (in_dec string_dec opp RPS) as [Ho | Ho] | ].
  - left. apply in_RPS_symbol in Hm, Ho.
    destruct Hm as [a ->], Ho as [b ->].
    destruct (resolve_moves a b w) as (face & Hf & E).
    now exists a, b, face.
  - right. split; [ now right | ].
    apply in_RPS_symbol in Hm. destruct Hm as [a ->].
    unfold resolve, bind.
    rewrite (index_outside_RPS opp Ho). destruct a; reflexivity.
  - right. split; [ now left | ].
    unfold resolve, bind. now rewrite (index_outside_RPS my Hm).
Qed.

Lemma display_score_cases (my opp r : Z) (w : World) :
  display_score my opp r 3 w = (Ok tt, flashed my w)
  \/ exists verdict,
       display_score my opp r 3 w = (Rebooted, announced verdict my w).
Proof.
  destruct (Z.eq_dec r 2) as [-> | H2]; [ | destruct (Z.eq_dec r 3) as [-> | H3] ].
  - rewrite display_score_round_2.
    destruct (my =? 2); [ right; eauto | ].
    destruct (opp =? 2); [ right; eauto | now left ].
  - right. rewrite display_score_round_3. eauto.
  - left. now apply display_score_other_round.
Qed.

Lemma substring_0_0 (s : string) : substring 0 0 s = "".
Proof. destruct s; reflexivity. Qed.

Lemma truthy_nonempty (c : ascii) (m : string) :
  truthy (Some (String c m)) = true.
Proof. reflexivity. Qed.

Lemma first_byte (c : ascii) (m : string) :
  slice 0 1 (String c m) = String c "".
Proof. unfold slice. simpl. now rewrite substring_0_0. Qed.

(** What the message half of the loop body does, by cases: nothing; note
    the acknowledgement; fail in [resolve] because the own play is not a
    move; or resolve the round, add the points and show the score. *)
Lemma process_message_cases (l : Locals) (message : option bytes) (w : World) :
  (process_message l message w = (Ok l, w)
   /\ (In (action_of message) RPS -> resolved l = true)
   /\ (action_of message = "X" -> acknowledged l = true))
  \/ (action_of message = "X" /\ acknowledged l = false
      /\ process_message l message w = (Ok (acked l), w))
  \/ (In (action_of message) RPS /\ resolved l = false
      /\ ~ In (choice l) RPS
      /\ process_message l message w = (Raised ValueError, w))
  \/ (exists a b face,
        choice l = symbol a /\ action_of message = symbol b
        /\ resolved l = false /\ In face [ASLEEP; HAPPY; SAD]
        /\ process_message l message w =
             (display_score (your_score (scored l (standard_points a b)))
                            (opp_score (scored l (standard_points a b)))
                            (round_number l) 3 ;;
              ret (scored l (standard_points a b)))
               (shown (Display_show [Img face]) w)).
Proof.
  assert (Hidle : In "" RPS -> resolved l = true)
    by (intros H; apply in_RPS in H; destruct H as [H | [H | H]]; discriminate H).
  destruct message as [[ | c m] | ]; simpl action_of;
    try (left; split; [ reflexivity | split; [ exact Hidle | discriminate ] ]).
  rewrite first_byte. unfold process_message.
  rewrite truthy_nonempty, first_byte.
  destruct (mem (String c "") RPS) eqn:Em.
  - apply mem_In in Em. destruct (resolved l) eqn:Er; cbn [andb Bool.eqb].
    + left. destruct (String.eqb_spec (String c "") "X") as [E | E].
      * rewrite E in Em. apply in_RPS in Em.
        destruct Em as [H | [H | H]]; discriminate H.
      * split; [ reflexivity | split; [ reflexivity | contradiction ] ].
    + destruct (resolve_cases (choice l) (String c "") w)
        as [(a & b & face & Ha & Hb & Hf & E) | ([Hn | Hn] & E)].
      * right; right; right. exists a, b, face.
        repeat (split; [ assumption || reflexivity | ]).
        unfold bind at 1. rewrite E.
        destruct (standard_points a b) as [my_result opp_result]. reflexivity.
      * right; right; left.
        repeat (split; [ assumption || reflexivity | ]).
        unfold bind. now rewrite E.
      * contradiction.
  - assert (Hn : ~ In (String c "") RPS)
      by (intros H; apply mem_In in H; congruence).
    cbn [andb]. destruct (String.eqb_spec (String c "") "X") as [E | E];
      [ destruct (acknowledged l) eqn:Ea | ]; cbn [andb Bool.eqb].
    + left. split; [ reflexivity | split; [ contradiction | reflexivity ] ].
    + right; left. repeat (split; [ assumption || reflexivity | ]).
      reflexivity.
    + left. split; [ reflexivity | split; [ contradiction | contradiction ] ].
Qed.

Lemma resolutions_shown (d : display_call) (w : World) :
  resolutions (shown d w) =
    (resolutions w + if is_face d then 1 else 0)%nat.
Proof.
  unfold resolutions, shown. simpl. rewrite filter_app, length_app. simpl.
  destruct (is_face d); reflexivity.
Qed.

Lemma resolutions_flashed (my : Z) (w : World) :
  resolutions (flashed my w) = resolutions w.
Proof. unfold flashed. rewrite resolutions_shown. simpl. lia. Qed.

Lemma resolutions_announced (verdict : string) (my : Z) (w : World) :
  resolutions (announced verdict my w) = resolutions w.
Proof.
  unfold announced. rewrite !resolutions_shown, resolutions_flashed.
  simpl. lia.
Qed.

Lemma resolutions_face (face : image) (w : World) :
  In face [ASLEEP; HAPPY; SAD] ->
  resolutions (shown (Display_show [Img face]) w) = S (resolutions w).
Proof.
  intros H. rewrite resolutions_shown.
  destruct H as [<- | [<- | [<- | []]]]; simpl; lia.
Qed.

(** What the message half leaves alone: the radio and the clock, the own
    play, the round number and the send time; and the two flags never go
    back to false. *)
Lemma process_message_frame (l : Locals) (message : option bytes)
      (w w' : World) (res : result Locals) :
  process_message l message w = (res, w') ->
  tx w' = tx w /\ clock w' = clock w /\ rx w' = rx w
  /\ forall l', res = Ok l' ->
       choice l' = choice l /\ round_number l' = round_number l
       /\ send_time l' = send_time l
       /\ (acknowledged l = true -> acknowledged l' = true)
       /\ (resolved l = true -> resolved l' = true).
Proof.
  intros H.
  destruct (process_message_cases l message w)
    as [(E & _) | [(_ & _ & E) | [(_ & _ & _ & E)
       | (a & b & face & _ & _ & _ & _ & E)]]];
    rewrite E in H.
  - injection H as <- <-. do 3 (split; [ reflexivity | ]).
    intros l' [= <-]. auto.
  - injection H as <- <-. do 3 (split; [ reflexivity | ]).
    intros l' [= <-]. auto.
  - injection H as <- <-. do 3 (split; [ reflexivity | ]).
    intros l' [= ].
  - unfold bind in H.
    destruct (display_score_cases
                (your_score (scored l (standard_points a b)))
                (opp_score (scored l (standard_points a b)))
                (round_number l) (shown (Display_show [Img face]) w))
      as [D | [verdict D]]; rewrite D in H; injection H as <- <-.
    + do 3 (split; [ reflexivity | ]). intros l' [= <-]. auto.
    + do 3 (split; [ reflexivity | ]). intros l' [= ].
Qed.

(** How the message half moves the score and the count of resolutions. *)
Lemma process_message_score (l : Locals) (message : option bytes)
      (w w' : World) (res : result Locals) :
  process_message l message w = (res, w') ->
  (resolutions w' = resolutions w
   /\ (In (action_of message) RPS ->
       resolved l = true \/ ~ In (choice l) RPS)
   /\ forall l', res = Ok l' ->
        resolved l' = resolved l
        /\ your_score l' = your_score l /\ opp_score l' = opp_score l)
  \/ (resolved l = false
      /\ resolutions w' = S (resolutions w)
      /\ exists a b,
           choice l = symbol a /\ action_of message = symbol b
           /\ forall l', res = Ok l' -> l' = scored l (standard_points a b)).
Proof.
  intros H.
  destruct (process_message_cases l message w)
    as [(E & Hres & _) | [(Hx & _ & E) | [(_ & _ & Hn & E)
       | (a & b & face & Ha & Hb & Hr & Hf & E)]]];
    rewrite E in H.
  - left. injection H as <- <-.
    split; [ reflexivity | split; [ auto | intros l' [= <-]; auto ] ].
  - left. injection H as <- <-.
    split; [ reflexivity | split; [ | intros l' [= <-]; auto ] ].
    rewrite Hx. intros Hin. apply in_RPS in Hin.
    destruct Hin as [K | [K | K]]; discriminate K.
  - left. injection H as <- <-.
    split; [ reflexivity | split; [ auto | intros l' [= ] ] ].
  - right. split; [ exact Hr | ]. unfold bind in H.
    destruct (display_score_cases
                (your_score (scored l (standard_points a b)))
                (opp_score (scored l (standard_points a b)))
                (round_number l) (shown (Display_show [Img face]) w))
      as [D | [verdict D]]; rewrite D in H; injection H as <- <-.
    + rewrite resolutions_flashed, resolutions_face by assumption.
      split; [ reflexivity | ]. exists a, b.
      repeat split; try assumption. now intros l' [= <-].
    + rewrite resolutions_announced, resolutions_face by assumption.
      split; [ reflexivity | ]. exists a, b.
      repeat split; try assumption. intros l' [= ].
Qed.

Lemma parse_message_frame (r : Z) (w w' : World) (res : result (option bytes)) :
  parse_message r w = (res, w') ->
  clock w' = clock w /\ screen w' = screen w
  /\ (tx w' = tx w \/ tx w' = (tx w ++ [ack_frame r])%list)
  /\ (res = Pending \/ exists message, res = Ok message).
Proof.
  assert (Hdone : forall (x : result (option bytes)) (v : World),
             clock v = clock w -> screen v = screen w ->
             tx v = tx w \/ tx v = (tx w ++ [ack_frame r])%list ->
             x = Pending \/ (exists message, x = Ok message) ->
             (x, v) = (res, w') ->
             clock w' = clock w /\ screen w' = screen w
             /\ (tx w' = tx w \/ tx w' = (tx w ++ [ack_frame r])%list)
             /\ (res = Pending \/ exists message, res = Ok message))
    by (intros x v Hc Hs Ht Hx [= <- <-]; auto).
  destruct (rx w) as [ | msg rest ] eqn:Hrx.
  - rewrite (parse_message_starved r w Hrx). apply Hdone; auto.
  - rewrite (parse_message_cases r w msg rest Hrx).
    destruct msg as [m | ]; [ | apply Hdone; eauto ].
    destruct (negb (len m =? 2) || negb (slice 1 2 m =? str r)%string);
      [ apply Hdone; eauto | ].
    destruct (mem (slice 0 1 m) RPS); [ apply Hdone; eauto | ].
    destruct (slice 0 1 m =? "X")%string; apply Hdone; eauto.
Qed.

Section RoundLoop.

Variable ticks_diff : Z -> Z -> Z.

(** The resend half of the loop body, by cases. *)
Lemma resend_if_due_cases (l : Locals) (w : World) :
  (acknowledged l = true /\ resend_if_due ticks_diff l w = (Ok l, w))
  \/ (acknowledged l = false
      /\ match clock w with
         | [] => resend_if_due ticks_diff l w = (Pending, w)
         | now :: rest =>
             if ticks_diff now (send_time l) >? 2000 then
               let w1 :=
                 set_tx (tx w ++ [move_frame (choice l) (round_number l)])
                        (set_clock rest w) in
               match rest with
               | [] => resend_if_due ticks_diff l w = (Pending, w1)
               | t :: rest' =>
                   resend_if_due ticks_diff l w =
                     (Ok (resent l t), set_clock rest' w1)
               end
             else resend_if_due ticks_diff l w = (Ok l, set_clock rest w)
         end).
Proof.
  unfold resend_if_due.
  destruct (acknowledged l) eqn:Ea; [ left | right ];
    (split; [ reflexivity | ]); cbn [Bool.eqb]; [ reflexivity | ].
  destruct (clock w) as [ | now rest ] eqn:Hc.
  - unfold bind, utime.ticks_ms. now rewrite Hc.
  - destruct (ticks_diff now (send_time l) >? 2000) eqn:Hgt.
    + destruct rest as [ | t rest' ]; cbv zeta;
        unfold bind at 1; unfold utime.ticks_ms at 1; rewrite Hc, Hgt;
        unfold send_choice, bind, radio.send_bytes, utime.ticks_ms, resent;
        rewrite ?Ea; reflexivity.
    + unfold bind, utime.ticks_ms. now rewrite Hc, Hgt.
Qed.

Lemma resend_if_due_frame (l : Locals) (w w' : World) (res : result Locals) :
  resend_if_due ticks_diff l w = (res, w') ->
  screen w' = screen w
  /\ (res = Pending
      \/ exists l', res = Ok l'
           /\ your_score l' = your_score l /\ opp_score l' = opp_score l
           /\ resolved l' = resolved l /\ acknowledged l' = acknowledged l
           /\ choice l' = choice l /\ round_number l' = round_number l).
Proof.
  assert (Hl : forall t, exists l', Ok (resent l t) = Ok l'
             /\ your_score l' = your_score l /\ opp_score l' = opp_score l
             /\ resolved l' = resolved l /\ acknowledged l' = acknowledged l
             /\ choice l' = choice l /\ round_number l' = round_number l)
    by (intros t; exists (resent l t); repeat split).
  assert (Hl0 : exists l', Ok l = Ok l'
             /\ your_score l' = your_score l /\ opp_score l' = opp_score l
             /\ resolved l' = resolved l /\ acknowledged l' = acknowledged l
             /\ choice l' = choice l /\ round_number l' = round_number l)
    by (exists l; repeat split).
  destruct (resend_if_due_cases l w) as [[_ E] | [_ E]].
  - rewrite E. intros [= <- <-]. auto.
  - destruct (clock w) as [ | now [ | t rest' ] ];
      [ | destruct (ticks_diff now (send_time l) >? 2000)
        | destruct (ticks_diff now (send_time l) >? 2000) ];
      simpl in E; rewrite E; intros [= <- <-]; auto.
Qed.

(** The loop body run backwards: the radio script ran out; or a message
    (or none) came back from [parse_message] and the message half did not
    return; or it did and the resend half ended the pass. *)
Lemma round_body_inv (l : Locals) (w w' : World) (res : result Locals) :
  round_body ticks_diff l w = (res, w') ->
  (res = Pending /\ w' = w /\ rx w = [])
  \/ exists message w1,
       parse_message (round_number l) w = (Ok message, w1)
       /\ ((exists r2, process_message l message w1 = (r2, w')
                       /\ stops r2 res)
           \/ exists l2 w2,
                process_message l message w1 = (Ok l2, w2)
                /\ resend_if_due ticks_diff l2 w2 = (res, w')).
Proof.
  unfold round_body. intros H.
  apply bind_inv in H as [(message & w1 & Hp & H) | (r & Hp & Hs)].
  - right. exists message, w1. split; [ exact Hp | ].
    apply bind_inv in H as [(l2 & w2 & Hm & H) | (r2 & Hm & Hs)].
    + right. now exists l2, w2.
    + left. now exists r2.
  - left. destruct (rx w) as [ | msg rest ] eqn:Hrx.
    + rewrite (parse_message_starved _ w Hrx) in Hp.
      injection Hp as <- <-. destruct res; simpl in Hs; try contradiction.
      auto.
    + exfalso. destruct (parse_message_frame _ _ _ _ Hp)
        as (_ & _ & _ & [-> | [message ->]]).
      * rewrite (parse_message_cases _ w msg rest Hrx) in Hp.
        destruct msg as [m | ]; [ | discriminate Hp ].
        destruct (negb (len m =? 2)
                  || negb (slice 1 2 m =? str (round_number l))%string);
          [ discriminate Hp | ].
        destruct (mem (slice 0 1 m) RPS); [ discriminate Hp | ].
        destruct (slice 0 1 m =? "X")%string; discriminate Hp.
      * exact Hs.
Qed.

Lemma stops_not_ok {A B : Type} (r : result A) (b : B) : ~ stops r (Ok b).
Proof. destruct r; simpl; tauto. Qed.

(** What one pass transmits: at most the acknowledgement of an accepted
    play, then at most one copy of the own move frame; the copy only when
    the round is not acknowledged and the clock, read against the time of
    the last send, shows more than 2000 ms; the send time is then the
    next reading of the clock, and is otherwise left as it was. *)
Lemma round_body_transmits (l : Locals) (w w' : World) (res : result Locals) :
  round_body ticks_diff l w = (res, w') ->
  exists acks resends : list bytes,
    tx w' = (tx w ++ acks ++ resends)%list
    /\ (acks = [] \/ acks = [ack_frame (round_number l)])
    /\ ((resends = []
         /\ forall l', res = Ok l' -> send_time l' = send_time l)
        \/ (resends = [move_frame (choice l) (round_number l)]
            /\ acknowledged l = false
            /\ exists now rest,
                 clock w = now :: rest
                 /\ ticks_diff now (send_time l) > 2000
                 /\ forall l', res = Ok l' ->
                      acknowledged l' = false
                      /\ exists rest', rest = send_time l' :: rest'
                                       /\ clock w' = rest'))
    /\ forall l', res = Ok l' ->
         choice l' = choice l /\ round_number l' = round_number l
         /\ (acknowledged l = true -> acknowledged l' = true).
Proof.
  intros H.
  apply round_body_inv in H
    as [(-> & -> & _) | (message & w1 & Hp & H)].
  { exists [], []. rewrite !app_nil_r.
    split; [ reflexivity | split; [ now left | split ] ].
    - left. split; [ reflexivity | intros l' [= ] ].
    - intros l' [= ]. }
  destruct (parse_message_frame _ _ _ _ Hp) as (Hc1 & _ & Ht1 & _).
  assert (Hacks : exists acks, tx w1 = (tx w ++ acks)%list
                   /\ (acks = [] \/ acks = [ack_frame (round_number l)])).
  { destruct Ht1 as [E | E]; [ exists [] | eexists ]; rewrite E.
    - rewrite app_nil_r. auto.
    - auto. }
  destruct Hacks as (acks & Ht & Hacks). exists acks.
  destruct H as [(r2 & Hm & Hs) | (l2 & w2 & Hm & Hr)].
  { destruct (process_message_frame _ _ _ _ _ Hm) as (Et & _).
    exists []. rewrite app_nil_r, Et.
    split; [ exact Ht | split; [ exact Hacks | split ] ].
    - left. split; [ reflexivity | ].
      intros l' ->. now apply stops_not_ok in Hs.
    - intros l' ->. now apply stops_not_ok in Hs. }
  destruct (process_message_frame _ _ _ _ _ Hm) as (Et & Ec & _ & Hl2).
  destruct (Hl2 l2 eq_refl) as (Hch & Hrn & Hst & Hack & _).
  destruct (resend_if_due_cases l2 w2) as [[Ea E] | [Ea E]].
  - rewrite E in Hr. injection Hr as <- <-.
    exists []. rewrite app_nil_r, Et.
    split; [ exact Ht | split; [ exact Hacks | split ] ].
    + left. split; [ reflexivity | now intros l' [= <-] ].
    + intros l' [= <-]. auto.
  - assert (Ea0 : acknowledged l = false).
    { destruct (acknowledged l); [ | reflexivity ].
      rewrite Hack in Ea by reflexivity. discriminate Ea. }
    rewrite Ec, Hc1 in E. rewrite Hch, Hrn, Hst in E.
    destruct (clock w) as [ | now rest ] eqn:Hclock.
    { rewrite E in Hr. injection Hr as <- <-.
      exists []. rewrite app_nil_r, Et.
      split; [ exact Ht | split; [ exact Hacks | split ] ].
      - left. split; [ reflexivity | intros l' [= ] ].
      - intros l' [= ]. }
    destruct (Z.gtb_spec (ticks_diff now (send_time l)) 2000) as [Hgt | Hle].
    + exists [move_frame (choice l) (round_number l)].
      assert (Htx : forall v, tx (set_clock v
                       (set_tx (tx w2 ++ [move_frame (choice l) (round_number l)])
                               (set_clock rest w2))) =
                     (tx w ++ acks ++ [move_frame (choice l) (round_number l)])%list).
      { intros v. simpl. now rewrite Et, Ht, app_assoc. }
      destruct rest as [ | t rest' ]; simpl in E; rewrite E in Hr;
        injection Hr as <- <-.
      * split; [ simpl; now rewrite Et, Ht, app_assoc
               | split; [ exact Hacks | split ] ].
        -- right. split; [ reflexivity | split; [ exact Ea0 | ] ].
           exists now, []. split; [ reflexivity | split; [ lia | ] ].
           intros l' [= ].
        -- intros l' [= ].
      * split; [ apply Htx | split; [ exact Hacks | split ] ].
        -- right. split; [ reflexivity | split; [ exact Ea0 | ] ].
           exists now, (t :: rest').
           split; [ reflexivity | split; [ lia | ] ].
           intros l' [= <-]. split; [ exact Ea | ].
           now exists rest'.
        -- intros l' [= <-]. simpl. auto.
    + rewrite E in Hr. injection Hr as <- <-.
      exists []. rewrite app_nil_r. simpl. rewrite Et.
      split; [ exact Ht | split; [ exact Hacks | split ] ].
      * left. split; [ reflexivity | now intros l' [= <-] ].
      * intros l' [= <-]. auto.
Qed.

(** Once the round is acknowledged the loop transmits acknowledgements
    only, for as long as it runs. *)
Lemma acknowledged_round_is_quiet (budget : nat) :
  forall (l : Locals) (w w' : World) (res : result Locals),
    acknowledged l = true ->
    round_loop ticks_diff budget l w = (res, w') ->
    exists n, tx w' = (tx w ++ repeat (ack_frame (round_number l)) n)%list.
Proof.
  induction budget as [ | budget IH ]; intros l w w' res Ha H;
    cbn [round_loop] in H.
  - exists 0%nat. simpl. rewrite app_nil_r.
    destruct (negb (acknowledged l && resolved l)); now injection H as _ <-.
  - destruct (negb (acknowledged l && resolved l));
      [ | exists 0%nat; simpl; rewrite app_nil_r; now injection H as _ <- ].
    apply bind_inv in H as [(l1 & w1 & Hb & H) | (r & Hb & _)].
    + destruct (round_body_transmits _ _ _ _ Hb)
        as (acks & resends & Et & Hacks & Hres & Hl).
      destruct (Hl l1 eq_refl) as (_ & Hrn & Hk).
      destruct Hres as [[-> _] | [_ [Hf _]]]; [ | congruence ].
      destruct (IH l1 w1 w' res (Hk Ha) H) as (n & En).
      rewrite Hrn in En. rewrite En, Et, app_nil_r.
      destruct Hacks as [-> | ->].
      * exists n. now rewrite app_nil_r.
      * exists (S n). now rewrite <- app_assoc.
    + destruct (round_body_transmits _ _ _ _ Hb)
        as (acks & resends & Et & Hacks & Hres & _).
      destruct Hres as [[-> _] | [_ [Hf _]]]; [ | congruence ].
      rewrite Et, app_nil_r.
      destruct Hacks as [-> | ->];
        [ exists 0%nat | exists 1%nat ]; reflexivity.
Qed.


Lemma symbol_not_ack (b : Move) : symbol b <> "X".
Proof. destruct b; discriminate. Qed.

(** How one pass moves the score: not at all, or, in a round not yet
    resolved, by the standard points of the own play against a received
    one, with one call of [resolve]. *)
Lemma round_body_score (l : Locals) (w w' : World) (res : result Locals) :
  round_body ticks_diff l w = (res, w') ->
  (resolutions w' = resolutions w
   /\ forall l', res = Ok l' ->
        resolved l' = resolved l /\ choice l' = choice l
        /\ your_score l' = your_score l /\ opp_score l' = opp_score l)
  \/ (resolved l = false
      /\ resolutions w' = S (resolutions w)
      /\ exists a b,
           choice l = symbol a
           /\ forall l', res = Ok l' ->
                resolved l' = true /\ choice l' = choice l
                /\ your_score l' = your_score l + fst (standard_points a b)
                /\ opp_score l' = opp_score l + snd (standard_points a b)).
Proof.
  intros H.
  apply round_body_inv in H
    as [(-> & -> & _) | (message & w1 & Hp & H)].
  { left. split; [ reflexivity | intros l' [= ] ]. }
  destruct (parse_message_frame _ _ _ _ Hp) as (_ & Hs1 & _).
  assert (R1 : resolutions w1 = resolutions w)
    by (unfold resolutions; now rewrite Hs1).
  destruct H as [(r2 & Hm & Hs) | (l2 & w2 & Hm & Hr)].
  - destruct (process_message_score _ _ _ _ _ Hm)
      as [(R & _) | (Hf & R & a & b & Ha & _)].
    + left. split; [ congruence | ].
      intros l' ->. now apply stops_not_ok in Hs.
    + right. split; [ exact Hf | split; [ congruence | ] ].
      exists a, b. split; [ exact Ha | ].
      intros l' ->. now apply stops_not_ok in Hs.
  - destruct (resend_if_due_frame _ _ _ _ Hr) as (Hs2 & Hl').
    assert (R2 : resolutions w' = resolutions w2)
      by (unfold resolutions; now rewrite Hs2).
    destruct (process_message_frame _ _ _ _ _ Hm) as (_ & _ & _ & Hfr).
    destruct (Hfr l2 eq_refl) as (Hch & _).
    destruct (process_message_score _ _ _ _ _ Hm)
      as [(R & _ & Hl2) | (Hf & R & a & b & Ha & _ & Hl2)].
    + left. split; [ congruence | ].
      intros l' ->. destruct Hl' as [K | (l3 & [= <-] & K)];
        [ discriminate K | ].
      destruct (Hl2 l2 eq_refl) as (E1 & E2 & E3).
      destruct K as (K1 & K2 & K3 & _ & K5 & _).
      repeat split; congruence.
    + right. split; [ exact Hf | split; [ congruence | ] ].
      exists a, b. split; [ exact Ha | ].
      intros l' ->. destruct Hl' as [K | (l3 & [= <-] & K)];
        [ discriminate K | ].
      destruct K as (K1 & K2 & K3 & _ & K5 & _).
      rewrite (Hl2 l2 eq_refl) in K1, K2, K3.
      rewrite K1, K2, K3, K5, Hch. repeat split.
Qed.

(** A round that starts unresolved is resolved once by the time its loop
    returns, and at most once however the loop ends; a resolved round is
    never resolved again. *)
Lemma round_loop_resolves_once (budget : nat) :
  forall (l : Locals) (w w' : World) (res : result Locals),
    round_loop ticks_diff budget l w = (res, w') ->
    (resolved l = true ->
       resolutions w' = resolutions w
       /\ forall l', res = Ok l' ->
            your_score l' = your_score l /\ opp_score l' = opp_score l)
    /\ (resolved l = false ->
          (resolutions w' <= S (resolutions w))%nat
          /\ forall l', res = Ok l' ->
               resolutions w' = S (resolutions w)
               /\ exists a b,
                    choice l = symbol a
                    /\ your_score l' =
                         your_score l + fst (standard_points a b)
                    /\ opp_score l' =
                         opp_score l + snd (standard_points a b)).
Proof.
  induction budget as [ | budget IH ]; intros l w w' res H;
    cbn [round_loop] in H.
  - destruct (acknowledged l && resolved l) eqn:Hc; simpl in H;
      injection H as <- <-.
    + apply andb_true_iff in Hc as [_ Hr]. split; [ | congruence ].
      intros _. split; [ reflexivity | now intros l' [= <-] ].
    + split; intros _; (split; [ auto | intros l' [= ] ]).
  - destruct (acknowledged l && resolved l) eqn:Hc; simpl in H.
    { injection H as <- <-.
      apply andb_true_iff in Hc as [_ Hr]. split; [ | congruence ].
      intros _. split; [ reflexivity | now intros l' [= <-] ]. }
    apply bind_inv in H as [(l1 & w1 & Hb & H) | (r & Hb & Hs)].
    + destruct (IH l1 w1 w' res H) as [IHt IHf].
      destruct (round_body_score _ _ _ _ Hb)
        as [(R & Hl1) | (Hf & R & a & b & Ha & Hl1)].
      * destruct (Hl1 l1 eq_refl) as (E1 & E2 & E3 & E4).
        rewrite E1, E2, E3, E4, R in *. now split.
      * destruct (Hl1 l1 eq_refl) as (E1 & E2 & E3 & E4).
        split; [ congruence | ]. intros _.
        destruct (IHt E1) as [R' Hl']. split; [ lia | ].
        intros l' ->. split; [ lia | ]. exists a, b.
        destruct (Hl' l' eq_refl) as [K1 K2].
        repeat split; congruence.
    + destruct (round_body_score _ _ _ _ Hb)
        as [(R & _) | (Hf & R & _)].
      * split; intros _;
          (split; [ lia | intros l' ->; now apply stops_not_ok in Hs ]).
      * split; [ congruence | ]. intros _.
        split; [ lia | intros l' ->; now apply stops_not_ok in Hs ].
Qed.



Lemma ack_frame_shape (r : Z) :
  String.length (str r) = 1%nat ->
  String.length (ack_frame r) = 2%nat
  /\ slice 1 2 (ack_frame r) = str r /\ slice 0 1 (ack_frame r) = "X".
Proof.
  intros H. destruct (str_one_char r H) as [_ E].
  unfold ack_frame. rewrite E. repeat split.
Qed.


Lemma move_frame_shape (b : Move) (r : Z) :
  String.length (move_frame (symbol b) r) = 2%nat ->
  String.length (str r) = 1%nat
  /\ slice 1 2 (move_frame (symbol b) r) = str r
  /\ slice 0 1 (move_frame (symbol b) r) = symbol b.
Proof.
  intros H.
  assert (H1 : String.length (str r) = 1%nat)
    by (destruct b; simpl in H; now injection H).
  destruct (str_one_char r H1) as [_ E].
  unfold move_frame. rewrite E. destruct b; repeat split.
Qed.

Lemma move_frame_not_ack (play : bytes) (r : Z) :
  In play RPS \/ play = "" -> move_frame play r <> ack_frame r.
Proof.
  unfold move_frame, ack_frame. intros [H | ->] E.
  - apply in_RPS in H. destruct H as [-> | [-> | ->]]; discriminate E.
  - apply (f_equal String.length) in E. simpl in E. lia.
Qed.


(** C9. The resend policy.  In a pass of the round loop the own move
    frame is transmitted again only if the round is not acknowledged and
    the clock shows more than 2000 ms since the recorded send time; the
    frame is then the one [send_choice] sent first (same play, same round)
    and the recorded send time becomes the clock reading taken after the
    resend; otherwise the send time stays.  From the moment the round is
    acknowledged the loop transmits nothing but acknowledgements, which no
    move frame is equal to. *)
Theorem resend_policy (l : Locals) (w : World) :
  (forall res w', round_body ticks_diff l w = (res, w') ->
     exists acks resends : list bytes,
       tx w' = (tx w ++ acks ++ resends)%list
       /\ (acks = [] \/ acks = [ack_frame (round_number l)])
       /\ ((resends = []
            /\ forall l', res = Ok l' -> send_time l' = send_time l)
           \/ (resends = [move_frame (choice l) (round_number l)]
               /\ acknowledged l = false
               /\ exists now rest,
                    clock w = now :: rest
                    /\ ticks_diff now (send_time l) > 2000
                    /\ forall l', res = Ok l' ->
                         acknowledged l' = false
                         /\ exists rest', rest = send_time l' :: rest'
                                          /\ clock w' = rest'))
       /\ forall l', res = Ok l' ->
            choice l' = choice l /\ round_number l' = round_number l
            /\ (acknowledged l = true -> acknowledged l' = true))
  /\ (forall v,
        tx (after (send_choice (choice l) (round_number l)) v) =
          (tx v ++ [move_frame (choice l) (round_number l)])%list)
  /\ (acknowledged l = true ->
        forall budget res w',
          round_loop ticks_diff budget l w = (res, w') ->
          exists n,
            tx w' = (tx w ++ repeat (ack_frame (round_number l)) n)%list)
  /\ (In (choice l) RPS \/ choice l = "" ->
        move_frame (choice l) (round_number l)
          <> ack_frame (round_number l)).
Proof.
  split; [ | split; [ | split ] ].
  - intros res w' H. exact (round_body_transmits l w w' res H).
  - intros v. apply send_choice_tx.
  - intros Ha budget res w' H.
    exact (acknowledged_round_is_quiet budget l w w' res Ha H).
  - apply move_frame_not_ack.
Qed.

End RoundLoop.


Lemma resend_policy_witness :
  let l := fresh_round "R" 1 100 in
  let w := hearing [None] [2101; 2102] in
  exists acks resends : list bytes,
    tx (after (round_body ticks_diff_wrap l) w) = (acks ++ resends)%list
    /\ (acks = [] \/ acks = ["X1"])
    /\ (resends = [] \/ resends = ["R1"]).
Proof.
  intros l w.
  destruct (resend_policy ticks_diff_wrap l w) as (Hstep & _).
  destruct (Hstep _ _ (surjective_pairing (round_body ticks_diff_wrap l w)))
    as (acks & resends & Et & Ha & Hr & _).
  exists acks, resends. split; [ exact Et | split; [ exact Ha | ] ].
  destruct Hr as [[Hr _] | [Hr _]]; [ now left | now right ].
Defined.

(** ** The whole match *)

Lemma standard_points_bounds (a b : Move) :
  0 <= fst (standard_points a b) /\ 0 <= snd (standard_points a b)
  /\ fst (standard_points a b) + snd (standard_points a b) <= 1.
Proof. destruct a, b; simpl; lia. Qed.

(** A round adds at most one point to the two scores together, so a match
    enters round 2 with at most one point between the sides and shows the
    score of round 2 with at most two. *)
Lemma round_loop_score_bounds (ticks_diff : Z -> Z -> Z) (budget : nat)
      (l l' : Locals) (w w' : World) :
  resolved l = false ->
  round_loop ticks_diff budget l w = (Ok l', w') ->
  your_score l <= your_score l' /\ opp_score l <= opp_score l'
  /\ your_score l' + opp_score l' <= your_score l + opp_score l + 1.
Proof.
  intros Hr H.
  destruct (round_loop_resolves_once ticks_diff budget l w w' _ H) as [_ Hf].
  destruct (Hf Hr) as [_ Hok].
  destruct (Hok l' eq_refl) as (_ & a & b & _ & E1 & E2).
  pose proof (standard_points_bounds a b). lia.
Qed.

(** A match enters round [r] with non-negative scores and at most [r - 1]
    points between the two sides; the score shown in round 2 therefore
    has at most two. *)
Lemma round_entry_scores (ticks_diff : Z -> Z -> Z) (your opp r : Z) :
  round_entry ticks_diff your opp r ->
  0 <= your /\ 0 <= opp /\ your + opp <= r - 1.
Proof.
  induction 1 as [ | your opp r budget play t w w' l' _ IH H ]; [ lia | ].
  apply round_loop_score_bounds in H; [ | reflexivity ].
  simpl in H. lia.
Qed.

(** The match of the specification's end-to-end scenario runs to the end
    of round 3 and is reported as a draw. *)
Example scenario_is_a_draw :
  create_address "04" "1f" = Some "041f"
  /\ fst (main ticks_diff_wrap 20 scenario) = Rebooted
  /\ tx (after (main ticks_diff_wrap 20) scenario) =
       ["R1"; "X1"; "P2"; "X2"; "S3"; "X3"]
  /\ firstn 2 (rev (screen (after (main ticks_diff_wrap 20) scenario))) =
       [Display_show [Img screen_off]; Display_scroll "You drew!"].
Proof. repeat split. Qed.

(** [resolve] raises as soon as its first argument is not a move. *)
Lemma resolve_without_play (my opp : bytes) (w : World) :
  ~ In my RPS -> resolve my opp w = (Raised ValueError, w).
Proof.
  intros H. unfold resolve, bind. now rewrite (index_outside_RPS my H).
Qed.

(** C10.  The play handed to [resolve] is not always a move.  The
    received byte is: [resolve] is reached only with a second argument in
    [RPS], and then fails only if the own play is outside [RPS]; its list
    lookups are in range whenever both arguments are moves.  But
    [choose_play] returns the empty byte string when button B is pressed
    before button A, and the first play frame that arrives then makes
    [resolve], and with it [main], raise [ValueError]. *)
Theorem main_raises_on_unselected_play :
  fst (choose_play 1 (set_button_b [true] (set_button_a [false] silent)))
    = Ok ""
  /\ ~ In "" RPS
  /\ fst (main ticks_diff_wrap 3 unselected) = Raised ValueError
  /\ (forall (l : Locals) (message : option bytes) (w w' : World) (e : exn),
        process_message l message w = (Raised e, w') ->
        In (action_of message) RPS /\ ~ In (choice l) RPS)
  /\ (forall (a b : Move) (w : World),
        exists points, fst (resolve (symbol a) (symbol b) w) = Ok points).
Proof.
  split; [ reflexivity | split; [ | split; [ reflexivity | split ] ] ].
  - intros H. apply in_RPS in H. destruct H as [H | [H | H]]; discriminate H.
  - intros l message w w' e H.
    destruct (process_message_cases l message w)
      as [(E & _) | [(_ & _ & E) | [(Hin & _ & Hn & _)
         | (a & b & face & _ & _ & _ & _ & E)]]].
    + rewrite E in H. discriminate H.
    + rewrite E in H. discriminate H.
    + now split.
    + rewrite E in H. unfold bind in H.
      destruct (display_score_cases
                  (your_score (scored l (standard_points a b)))
                  (opp_score (scored l (standard_points a b)))
                  (round_number l) (shown (Display_show [Img face]) w))
        as [D | [verdict D]]; rewrite D in H; discriminate H.
  - intros a b w. destruct (resolve_moves a b w) as (face & _ & E).
    exists (standard_points a b). now rewrite E.
Qed.


(** * Further properties of the program *)

(** ** The outcome resolver, off the nine pairs and on them *)

Lemma resolve_moves_face (a b : Move) (w : World) :
  resolve (symbol a) (symbol b) w =
    (Ok (standard_points a b),
     shown (Display_show [Img (face_for (standard_points a b))]) w).
Proof. destruct a, b; reflexivity. Qed.

(** [resolve] raises exactly when one of its arguments is not in [RPS];
    what it raises is [ValueError], before anything is displayed; it
    never raises [IndexError], resets the board or waits. *)
Theorem resolve_raises_iff (my opp : bytes) (w : World) :
  (~ In my RPS \/ ~ In opp RPS <->
   resolve my opp w = (Raised ValueError, w))
  /\ (In my RPS -> In opp RPS -> exists points w',
        resolve my opp w = (Ok points, w'))
  /\ fst (resolve my opp w) <> Raised IndexError
  /\ fst (resolve my opp w) <> Rebooted
  /\ fst (resolve my opp w) <> Pending.
Proof.
  destruct (resolve_cases my opp w)
    as [(a & b & face & -> & -> & _ & E) | (Hn & E)]; rewrite E.
  - split; [ split | split; [ eauto | repeat split; discriminate ] ].
    + intros [H | H]; exfalso; apply H; apply symbol_in_RPS.
    + discriminate.
  - split; [ split; auto | split; [ | repeat split; discriminate ] ].
    intros Hm Ho. destruct Hn; contradiction.
Qed.

(** On two moves exactly one side gets a point unless the moves are
    equal, when neither does; and the face shown is the happy one for a
    win, the sad one for a loss, the sleeping one for a draw. *)
Theorem resolve_one_point (a b : Move) (w : World) :
  exists p q : Z,
    resolve (symbol a) (symbol b) w =
      (Ok (p, q), shown (Display_show [Img (face_for (p, q))]) w)
    /\ (a = b -> p = 0 /\ q = 0)
    /\ (a <> b -> (p = 1 /\ q = 0) \/ (p = 0 /\ q = 1))
    /\ (p = 1 <-> beats a b = true)
    /\ (q = 1 <-> beats b a = true).
Proof.
  exists (fst (standard_points a b)), (snd (standard_points a b)).
  rewrite <- surjective_pairing. split; [ apply resolve_moves_face | ].
  destruct a, b; simpl; repeat split; intros; auto; try congruence;
    try discriminate; try lia.
Qed.

(** ** The codec, for acknowledgements and from the receiving side *)

Lemma send_acknowledgement_tx (r : Z) (w : World) :
  send_acknowledgement r w = (Ok tt, set_tx (tx w ++ [ack_frame r]) w).
Proof. reflexivity. Qed.

(** Acknowledgement round trip: for a round from 0 to 9 the frame
    [send_acknowledgement] transmits is X followed by the digit of the
    round; [parse_message] for that round hands it back and transmits
    nothing in reply; [parse_message] for any other round, of one digit or
    more, returns [None]. *)
Theorem ack_round_trip (r : Z) (ws wr : World) (rest : list (option bytes)) :
  0 <= r <= 9 ->
  let frame := String "X" (String (digit r) "") in
  send_acknowledgement r ws = (Ok tt, set_tx (tx ws ++ [frame]) ws)
  /\ (rx wr = Some frame :: rest ->
      parse_message r wr = (Ok (Some frame), set_rx rest wr))
  /\ (forall r', r' <> r -> rx wr = Some frame :: rest ->
      parse_message r' wr = (Ok None, set_rx rest wr)).
Proof.
  intros Hr frame.
  assert (Hs : str r = String (digit r) "") by now apply str_digit.
  assert (Hf : frame = ack_frame r) by (unfold ack_frame; now rewrite Hs).
  split; [ | split ].
  - rewrite Hf. apply send_acknowledgement_tx.
  - intros Hrx. apply parse_message_ack; try assumption; try reflexivity.
    now rewrite Hs.
  - intros r' Hne Hrx. rewrite (parse_message_cases r' wr _ _ Hrx).
    destruct (String.eqb_spec (slice 1 2 frame) (str r')) as [E | E].
    + exfalso. apply Hne.
      assert (H1 : String.length (str r') = 1%nat) by now rewrite <- E.
      destruct (str_one_char r' H1) as [Hr' Hs'].
      rewrite Hs' in E. apply digit_inj; try assumption.
      now injection E.
    + now rewrite orb_true_r.
Qed.

Lemma ack_round_trip_witness :
  send_acknowledgement 2 silent = (Ok tt, set_tx ["X2"] silent)
  /\ parse_message 2 (hearing [Some "X2"] []) = (Ok (Some "X2"), silent)
  /\ parse_message 12 (hearing [Some "X2"] []) = (Ok None, silent).
Proof.
  assert (H : 0 <= 2 <= 9) by lia.
  destruct (ack_round_trip 2 silent (hearing [Some "X2"] []) [] H)
    as (Hs & Hsame & Hother).
  split; [ exact Hs | split ].
  - now apply Hsame.
  - apply Hother; [ lia | reflexivity ].
Defined.

(** Whatever [parse_message] hands to the round loop is well formed: it
    is the message the radio delivered, two bytes long, its second byte
    the decimal rendering of the expected round, which is then a single
    digit, and its first byte a move symbol (when the acknowledgement has
    been transmitted) or X (when nothing has).  So no frame at all is
    accepted in a round numbered 10 or more. *)
Theorem parse_message_accepts_only (r : Z) (w w' : World) (m : bytes) :
  parse_message r w = (Ok (Some m), w') ->
  0 <= r <= 9
  /\ exists (c : ascii) (rest : list (option bytes)),
       m = String c (String (digit r) "")
       /\ rx w = Some m :: rest
       /\ ((In (String c "") RPS
            /\ w' = set_tx (tx w ++ [ack_frame r]) (set_rx rest w))
           \/ (c = "X"%char /\ w' = set_rx rest w)).
Proof.
  intros H.
  destruct (rx w) as [ | msg rest ] eqn:Hrx;
    [ rewrite (parse_message_starved r w Hrx) in H; discriminate H | ].
  rewrite (parse_message_cases r w msg rest Hrx) in H.
  destruct msg as [m0 | ]; [ | discriminate H ].
  destruct (len m0 =? 2) eqn:E2; [ | discriminate H ].
  destruct (String.eqb_spec (slice 1 2 m0) (str r)) as [Er | Er];
    [ | discriminate H ].
  cbn [negb orb] in H. apply len_is_two in E2.
  destruct (length_two m0 E2) as (c & d & ->).
  assert (Hd : str r = String d "") by (now rewrite <- Er).
  assert (H1 : String.length (str r) = 1%nat) by now rewrite Hd.
  destruct (str_one_char r H1) as [Hr Hs].
  assert (d = digit r) by congruence. subst d.
  split; [ exact Hr | ].
  rewrite first_byte in H.
  destruct (mem (String c "") RPS) eqn:Em.
  - injection H as <- <-. exists c, rest.
    split; [ reflexivity | split; [ reflexivity | left ] ].
    split; [ now apply mem_In | reflexivity ].
  - destruct (String.eqb_spec (String c "") "X") as [Ex | Ex];
      [ | discriminate H ].
    injection H as <- <-. exists c, rest.
    split; [ reflexivity | split; [ reflexivity | right ] ].
    split; [ now injection Ex | reflexivity ].
Qed.

Lemma parse_message_accepts_only_witness :
  0 <= 1 <= 9
  /\ exists (c : ascii) (rest : list (option bytes)),
       "P1" = String c (String (digit 1) "")
       /\ rx (hearing [Some "P1"; None] []) = Some "P1" :: rest.
Proof.
  destruct (parse_message_accepts_only 1 (hearing [Some "P1"; None] [])
              (set_tx ["X1"] (hearing [None] [])) "P1" eq_refl)
    as (Hr & c & rest & Hm & Hrx & _).
  split; [ exact Hr | ]. now exists c, rest.
Defined.

(** ** [display_score] at its edges *)

(** [display_score] either returns or resets the board, whatever the
    scores; it resets only in round 2, with one of the scores equal to 2,
    or in round 3, and in both only if it was asked to flash at least
    once: with [times = 0] it never ends the match. *)
Theorem display_score_resets_only (my opp r : Z) (times : nat) (w : World) :
  (fst (display_score my opp r times w) = Ok tt
   \/ fst (display_score my opp r times w) = Rebooted)
  /\ (fst (display_score my opp r times w) = Rebooted <->
      times <> 0%nat /\ ((r = 2 /\ (my = 2 \/ opp = 2)) \/ r = 3)).
Proof.
  unfold display_score.
  destruct times as [ | n ]; cbn [for_range].
  - destruct (r =? 2); [ destruct (my =? 2); [ | destruct (opp =? 2) ] | ];
      try (split; [ now left | split; [ discriminate | intros [K _]; congruence ] ]).
    destruct (r =? 3);
      [ destruct (my >? opp); [ | destruct (opp >? my);
                                    [ | destruct (opp =? my) ] ] | ];
      (split; [ now left | split; [ discriminate | intros [K _]; congruence ] ]).
  - destruct (Z.eqb_spec r 2) as [-> | H2].
    + destruct (Z.eqb_spec my 2) as [-> | Hm];
        [ | destruct (Z.eqb_spec opp 2) as [-> | Ho] ].
      * split; [ now right | split; [ intros _ | reflexivity ] ].
        split; [ discriminate | left; auto ].
      * split; [ now right | split; [ intros _ | reflexivity ] ].
        split; [ discriminate | left; auto ].
      * split; [ now left | split; [ discriminate | ] ].
        intros [_ [[_ [K | K]] | K]]; congruence || lia.
    + destruct (Z.eqb_spec r 3) as [-> | H3].
      * assert (Hreset : forall c : M unit,
                   fst (c w) = Rebooted ->
                   (fst (c w) = Ok tt \/ fst (c w) = Rebooted)
                   /\ (fst (c w) = Rebooted <->
                       S n <> 0%nat /\ ((3 = 2 /\ (my = 2 \/ opp = 2)) \/ 3 = 3)))
          by (intros c E; split; [ now right | split; auto ]).
        destruct (Z.gtb_spec my opp); [ now apply Hreset | ].
        destruct (Z.gtb_spec opp my); [ now apply Hreset | ].
        destruct (Z.eqb_spec opp my); [ now apply Hreset | lia ].
      * split; [ now left | split; [ discriminate | ] ].
        intros [_ [[K _] | K]]; congruence.
Qed.

(** ** Single passes of the round loop *)

Lemma parse_message_rejected (r : Z) (w : World) (msg : option bytes)
      (rest : list (option bytes)) :
  rx w = msg :: rest ->
  fst (parse_message r w) = Ok None ->
  parse_message r w = (Ok None, set_rx rest w).
Proof.
  intros Hrx. rewrite (parse_message_cases r w _ _ Hrx).
  destruct msg as [m | ]; [ | reflexivity ].
  destruct (negb (len m =? 2) || negb (slice 1 2 m =? str r)%string);
    [ reflexivity | ].
  destruct (mem (slice 0 1 m) RPS); [ discriminate | ].
  destruct (slice 0 1 m =? "X")%string; [ discriminate | reflexivity ].
Qed.

Section Passes.

Variable ticks_diff : Z -> Z -> Z.

Lemma round_body_on_rejected (l : Locals) (w : World) (msg : option bytes)
      (rest : list (option bytes)) :
  rx w = msg :: rest ->
  fst (parse_message (round_number l) w) = Ok None ->
  round_body ticks_diff l w = resend_if_due ticks_diff l (set_rx rest w).
Proof.
  intros Hrx Hrej. unfold round_body. unfold bind at 1.
  rewrite (parse_message_rejected _ w msg rest Hrx Hrej).
  reflexivity.
Qed.

(** A message that [parse_message] rejects (no message, a malformed one,
    one tagged with another round) is dropped by the round loop: the pass
    calls no [resolve], transmits no acknowledgement (at most the resend
    of the own move), and leaves the score and both flags as they were. *)
Theorem rejected_message_is_dropped (l : Locals) (w : World)
        (msg : option bytes) (rest : list (option bytes)) :
  rx w = msg :: rest ->
  fst (parse_message (round_number l) w) = Ok None ->
  forall res w', round_body ticks_diff l w = (res, w') ->
    resolutions w' = resolutions w
    /\ rx w' = rest
    /\ (tx w' = tx w
        \/ tx w' = (tx w ++ [move_frame (choice l) (round_number l)])%list)
    /\ (res = Pending
        \/ exists l', res = Ok l'
             /\ your_score l' = your_score l /\ opp_score l' = opp_score l
             /\ resolved l' = resolved l
             /\ acknowledged l' = acknowledged l).
Proof.
  intros Hrx Hrej res w' H.
  rewrite (round_body_on_rejected l w msg rest Hrx Hrej) in H.
  destruct (resend_if_due_frame ticks_diff _ _ _ _ H) as (Hs & Hl).
  split; [ unfold resolutions; now rewrite Hs | ].
  assert (Hw : rx w' = rest
               /\ (tx w' = tx w
                   \/ tx w' =
                        (tx w ++ [move_frame (choice l) (round_number l)])%list)).
  { destruct (resend_if_due_cases ticks_diff l (set_rx rest w))
      as [[_ E] | [_ E]].
    - rewrite E in H. injection H as _ <-. auto.
    - simpl clock in E. destruct (clock w) as [ | now [ | t c ] ];
        [ | destruct (ticks_diff now (send_time l) >? 2000)
          | destruct (ticks_diff now (send_time l) >? 2000) ];
        simpl in E; rewrite E in H; injection H as _ <-; auto. }
  destruct Hw as [Hr Ht]. split; [ exact Hr | split; [ exact Ht | ] ].
  destruct Hl as [-> | (l' & -> & K1 & K2 & K3 & K4 & _)];
    [ now left | right ].
  exists l'. auto.
Qed.

Lemma round_body_first_ack (l : Locals) (w : World)
      (rest : list (option bytes)) :
  acknowledged l = false ->
  0 <= round_number l <= 9 ->
  rx w = Some (ack_frame (round_number l)) :: rest ->
  round_body ticks_diff l w = (Ok (acked l), set_rx rest w).
Proof.
  intros Ha Hr Hrx.
  assert (H1 : String.length (str (round_number l)) = 1%nat)
    by (rewrite (str_digit _ Hr); reflexivity).
  destruct (ack_frame_shape _ H1) as (K2 & Kd & Kx).
  unfold round_body. unfold bind at 1.
  rewrite (parse_message_ack _ w _ rest Hrx K2 Kd Kx).
  unfold bind.
  destruct (process_message_cases l (Some (ack_frame (round_number l)))
                                  (set_rx rest w))
    as [(_ & _ & K) | [(_ & _ & E) | [(K & _) | (a & b & face & _ & K & _)]]];
    simpl action_of in *.
  - rewrite (K Kx) in Ha. discriminate Ha.
  - rewrite E.
    destruct (resend_if_due_cases ticks_diff (acked l) (set_rx rest w))
      as [[_ E'] | [K _]]; [ now rewrite E' | discriminate K ].
  - rewrite Kx in K. apply in_RPS in K.
    destruct K as [K | [K | K]]; discriminate K.
  - rewrite Kx in K. symmetry in K. now apply symbol_not_ack in K.
Qed.

(** The first acknowledgement of a round: the pass sets the acknowledged
    flag and does nothing else; it reads no clock and so resends nothing,
    even if the resend was due. *)
Theorem first_acknowledgement (l : Locals) (w : World)
        (rest : list (option bytes)) :
  acknowledged l = false ->
  0 <= round_number l <= 9 ->
  rx w = Some (ack_frame (round_number l)) :: rest ->
  round_body ticks_diff l w = (Ok (acked l), set_rx rest w)
  /\ clock (after (round_body ticks_diff l) w) = clock w
  /\ tx (after (round_body ticks_diff l) w) = tx w.
Proof.
  intros Ha Hr Hrx. unfold after.
  rewrite (round_body_first_ack l w rest Ha Hr Hrx). repeat split.
Qed.

(** A pass with no message on the air.  In an acknowledged round it does
    nothing and reads no clock.  Otherwise it reads the clock once and
    resends the own move frame exactly when the reading is more than
    2000 ticks past the send time; the new send time is then the next
    clock reading. *)
Theorem idle_pass (l : Locals) (w : World) (rest : list (option bytes)) :
  rx w = None :: rest ->
  (acknowledged l = true ->
     round_body ticks_diff l w = (Ok l, set_rx rest w))
  /\ (acknowledged l = false ->
      forall now t ticks, clock w = now :: t :: ticks ->
        (ticks_diff now (send_time l) > 2000 ->
           round_body ticks_diff l w =
             (Ok (resent l t),
              set_clock ticks
                (set_tx (tx w ++ [move_frame (choice l) (round_number l)])
                        (set_rx rest w))))
        /\ (ticks_diff now (send_time l) <= 2000 ->
              round_body ticks_diff l w =
                (Ok l, set_clock (t :: ticks) (set_rx rest w)))).
Proof.
  intros Hrx.
  assert (Hb : round_body ticks_diff l w =
               resend_if_due ticks_diff l (set_rx rest w)).
  { apply (round_body_on_rejected l w None rest Hrx).
    now rewrite (parse_message_cases _ w None rest Hrx). }
  rewrite Hb.
  destruct (resend_if_due_cases ticks_diff l (set_rx rest w))
    as [[Ha E] | [Ha E]].
  - split; [ now intros _ | intros K; congruence ].
  - split; [ intros K; congruence | ].
    intros _ now t ticks Hc. simpl clock in E. rewrite Hc in E.
    destruct (Z.gtb_spec (ticks_diff now (send_time l)) 2000) as [Hgt | Hle].
    + split; [ intros _; exact E | lia ].
    + split; [ lia | intros _; exact E ].
Qed.

(** ** Whole rounds *)

Lemma round_loop_fields (budget : nat) :
  forall (l l' : Locals) (w w' : World),
    round_loop ticks_diff budget l w = (Ok l', w') ->
    acknowledged l' = true /\ resolved l' = true
    /\ choice l' = choice l /\ round_number l' = round_number l.
Proof.
  induction budget as [ | budget IH ]; intros l l' w w' H;
    cbn [round_loop] in H;
    destruct (acknowledged l && resolved l) eqn:Hc; simpl in H;
    try discriminate H;
    try (injection H as <- <-; apply andb_true_iff in Hc as [Ha Hr];
         now repeat split).
  apply bind_ok in H as (l1 & w1 & Hb & H).
  destruct (round_body_transmits ticks_diff _ _ _ _ Hb)
    as (_ & _ & _ & _ & _ & Hl).
  destruct (Hl l1 eq_refl) as (E1 & E2 & _).
  destruct (IH _ _ _ _ H) as (K1 & K2 & K3 & K4).
  repeat split; congruence.
Qed.

(** When the loop of a round returns, both flags are set, the play and
    the round number are the ones it started with, no score has gone
    down and the two together have gained at most one point; a round
    that was already resolved when the loop started gains nothing. *)
Theorem round_loop_exit (budget : nat) (l l' : Locals) (w w' : World) :
  round_loop ticks_diff budget l w = (Ok l', w') ->
  acknowledged l' = true /\ resolved l' = true
  /\ choice l' = choice l /\ round_number l' = round_number l
  /\ your_score l <= your_score l' /\ opp_score l <= opp_score l'
  /\ your_score l' + opp_score l' <= your_score l + opp_score l + 1
  /\ (resolved l = true ->
      your_score l' = your_score l /\ opp_score l' = opp_score l).
Proof.
  intros H.
  destruct (round_loop_fields budget _ _ _ _ H) as (K1 & K2 & K3 & K4).
  destruct (round_loop_resolves_once ticks_diff budget l w w' _ H)
    as [Ht Hf].
  do 4 (split; [ assumption | ]).
  destruct (resolved l) eqn:Hr.
  - destruct (Ht eq_refl) as [_ Hs]. destruct (Hs l' eq_refl) as [E1 E2].
    repeat split; try lia; assumption.
  - destruct (Hf eq_refl) as [_ Hs].
    destruct (Hs l' eq_refl) as (_ & a & b & _ & E1 & E2).
    pose proof (standard_points_bounds a b).
    repeat split; try lia; discriminate.
Qed.

Lemma display_score_continues (my opp r : Z) (w : World) :
  r <> 3 -> (r = 2 -> my <> 2 /\ opp <> 2) ->
  display_score my opp r 3 w = (Ok tt, flashed my w).
Proof.
  intros H3 H2. destruct (Z.eq_dec r 2) as [-> | Hne].
  - destruct (H2 eq_refl) as [Hm Ho]. rewrite display_score_round_2.
    apply Z.eqb_neq in Hm, Ho. now rewrite Hm, Ho.
  - now apply display_score_other_round.
Qed.

(** The pass that resolves a round returns only if the match goes on:
    never in round 3, and in round 2 only with both scores off 2. *)
Lemma resolving_pass_continues (l l' : Locals) (w w' : World) :
  round_body ticks_diff l w = (Ok l', w') ->
  resolved l = false -> resolved l' = true ->
  round_number l <> 3
  /\ (round_number l = 2 -> your_score l' <> 2 /\ opp_score l' <> 2).
Proof.
  intros H Hr Hr'.
  apply round_body_inv in H as [(K & _) | (message & w1 & _ & H)];
    [ discriminate K | ].
  destruct H as [(r2 & _ & Hs) | (l2 & w2 & Hm & Hre)];
    [ now apply stops_not_ok in Hs | ].
  destruct (resend_if_due_frame ticks_diff _ _ _ _ Hre)
    as (_ & [K | (l3 & [= <-] & K1 & K2 & K3 & _)]); [ discriminate K | ].
  rewrite K1, K2. rewrite K3 in Hr'. clear Hre K1 K2 K3.
  destruct (process_message_cases l message w1)
    as [(E & _) | [(_ & _ & E) | [(_ & _ & _ & E)
       | (a & b & face & _ & _ & _ & _ & E)]]];
    rewrite E in Hm.
  - injection Hm as <- _. congruence.
  - injection Hm as <- _. simpl in Hr'. congruence.
  - discriminate Hm.
  - unfold bind in Hm. split.
    + intros E3. rewrite E3, display_score_round_3 in Hm. discriminate Hm.
    + intros E2. rewrite E2, display_score_round_2 in Hm.
      destruct (Z.eqb_spec (your_score (scored l (standard_points a b))) 2);
        [ discriminate Hm | ].
      destruct (Z.eqb_spec (opp_score (scored l (standard_points a b))) 2);
        [ discriminate Hm | ].
      injection Hm as <- _. now split.
Qed.

Lemma round_loop_returning (budget : nat) :
  forall (l l' : Locals) (w w' : World),
    resolved l = false ->
    round_loop ticks_diff budget l w = (Ok l', w') ->
    round_number l <> 3
    /\ (round_number l = 2 -> your_score l' <> 2 /\ opp_score l' <> 2).
Proof.
  induction budget as [ | budget IH ]; intros l l' w w' Hr H;
    cbn [round_loop] in H; rewrite Hr, andb_false_r in H; simpl in H;
    [ discriminate H | ].
  apply bind_ok in H as (l1 & w1 & Hb & H).
  destruct (round_body_transmits ticks_diff _ _ _ _ Hb)
    as (_ & _ & _ & _ & _ & Hl).
  destruct (Hl l1 eq_refl) as (_ & Ern & _).
  destruct (resolved l1) eqn:Hr1.
  - destruct (resolving_pass_continues _ _ _ _ Hb Hr Hr1) as [H3 H2].
    split; [ exact H3 | ]. intros E2.
    destruct (round_loop_resolves_once ticks_diff budget l1 w1 w' _ H)
      as [Ht _].
    destruct (Ht Hr1) as [_ Hs]. destruct (Hs l' eq_refl) as [E1 E2'].
    rewrite E1, E2'. now apply H2.
  - rewrite <- Ern. now apply (IH l1 l' w1 w').
Qed.

(** The loop of round 3 never returns: the round ends in the reset (or
    not at all).  The loop of round 2 returns only if neither score has
    reached 2. *)
Theorem round_loop_returns_to_continue (budget : nat) :
  forall (l l' : Locals) (w w' : World),
    resolved l = false ->
    round_loop ticks_diff budget l w = (Ok l', w') ->
    round_number l <> 3
    /\ (round_number l = 2 -> your_score l' <> 2 /\ opp_score l' <> 2).
Proof. exact (round_loop_returning budget). Qed.

Lemma process_message_play (l : Locals) (c : ascii) (m : string) (w : World)
      (a b : Move) :
  choice l = symbol a -> resolved l = false -> String c "" = symbol b ->
  process_message l (Some (String c m)) w =
    (display_score (your_score (scored l (standard_points a b)))
                   (opp_score (scored l (standard_points a b)))
                   (round_number l) 3 ;;
     ret (scored l (standard_points a b)))
      (shown (Display_show [Img (face_for (standard_points a b))]) w).
Proof.
  intros Ha Hr Hb. unfold process_message.
  rewrite truthy_nonempty, first_byte, Hb, Hr.
  assert (Hm : mem (symbol b) RPS = true) by (destruct b; reflexivity).
  rewrite Hm. cbn [andb Bool.eqb]. unfold bind at 1.
  pose proof (resolve_moves_face a b w) as E. rewrite <- Ha in E.
  rewrite E.
  destruct (standard_points a b) as [my_result opp_result]. reflexivity.
Qed.

(** A round that goes well.  With both flags down, a play of the
    opponent on the air followed by the acknowledgement of ours, and a
    clock that shows no resend due, two passes complete the round: the
    loop returns with both flags set and the standard points added,
    having acknowledged the play, shown the face and flashed the score,
    and having consumed the two messages and one clock reading.  (Round 3
    and a round 2 that reaches 2 points end in the reset instead.) *)
Theorem round_completes (l : Locals) (w : World) (a b : Move)
        (rest : list (option bytes)) (now : Z) (ticks : list Z) (n : nat) :
  choice l = symbol a ->
  acknowledged l = false -> resolved l = false ->
  0 <= round_number l <= 9 -> round_number l <> 3 ->
  (round_number l = 2 ->
     your_score l + fst (standard_points a b) <> 2
     /\ opp_score l + snd (standard_points a b) <> 2) ->
  rx w = Some (move_frame (symbol b) (round_number l))
           :: Some (ack_frame (round_number l)) :: rest ->
  clock w = now :: ticks ->
  ticks_diff now (send_time l) <= 2000 ->
  round_loop ticks_diff (S (S n)) l w =
    (Ok (acked (scored l (standard_points a b))),
     flashed (your_score l + fst (standard_points a b))
       (shown (Display_show [Img (face_for (standard_points a b))])
          (set_clock ticks
             (set_tx (tx w ++ [ack_frame (round_number l)])
                     (set_rx rest w))))).
Proof.
  intros Ha Hk Hr Hd H3 H2 Hrx Hc Hle.
  assert (Hs : str (round_number l) = String (digit (round_number l)) "")
    by now apply str_digit.
  set (pts := standard_points a b).
  set (w1 := set_tx (tx w ++ [ack_frame (round_number l)])
                    (set_rx (Some (ack_frame (round_number l)) :: rest) w)).
  set (w2 := flashed (your_score l + fst pts)
               (shown (Display_show [Img (face_for pts)]) w1)).
  assert (P1 : round_body ticks_diff l w =
               (Ok (scored l pts), set_clock ticks w2)).
  { unfold round_body. unfold bind at 1.
    rewrite (parse_message_move _ w _ _ Hrx);
      [ | unfold move_frame; rewrite Hs; now destruct b
        | unfold move_frame; rewrite Hs; now destruct b
        | unfold move_frame; rewrite Hs; destruct b; simpl; tauto ].
    fold w1. unfold bind at 1.
    assert (Hf : move_frame (symbol b) (round_number l) =
                 String (match b with Rock => "R" | Paper => "P"
                                 | Scissors => "S" end)%char
                        (str (round_number l)))
      by (destruct b; reflexivity).
    rewrite Hf.
    rewrite (process_message_play l _ _ w1 a b Ha Hr)
      by (destruct b; reflexivity).
    fold pts. unfold bind at 1.
    rewrite display_score_continues; [ | exact H3 | exact H2 ].
    change (flashed (your_score (scored l pts))
              (shown (Display_show [Img (face_for pts)]) w1)) with w2.
    destruct (resend_if_due_cases ticks_diff (scored l pts) w2)
      as [[K _] | [_ E]]; [ simpl in K; congruence | ].
    change (clock w2) with (clock w) in E. rewrite Hc in E.
    change (send_time (scored l pts)) with (send_time l) in E.
    destruct (Z.gtb_spec (ticks_diff now (send_time l)) 2000);
      [ lia | exact E ]. }
  assert (P2 : round_body ticks_diff (scored l pts) (set_clock ticks w2) =
               (Ok (acked (scored l pts)),
                set_rx rest (set_clock ticks w2)))
    by (apply round_body_first_ack; [ exact Hk | exact Hd | reflexivity ]).
  cbn [round_loop]. rewrite Hk. cbn [andb negb].
  unfold bind at 1. rewrite P1.
  change (acknowledged (scored l pts)) with (acknowledged l). rewrite Hk.
  cbn [andb negb]. unfold bind at 1. rewrite P2.
  destruct n; reflexivity.
Qed.

(** ** The match never starts a fourth round *)

Lemma bind_ext {A B : Type} (c : M A) (k k' : A -> M B) (w : World) :
  (forall a w1, c w = (Ok a, w1) -> k a w1 = k' a w1) ->
  bind c k w = bind c k' w.
Proof.
  intros H. unfold bind. destruct (c w) as [[a | e | | ] w1]; auto.
Qed.

Lemma match_loop_round_3 (budget n : nat) (your opp : Z) (w : World) :
  match_loop ticks_diff budget (S n) your opp 3 w =
  match_loop ticks_diff budget 1 your opp 3 w.
Proof.
  cbn [match_loop].
  do 5 (apply bind_ext; intros ? ? _).
  apply bind_ext. intros l' w' H. exfalso.
  apply round_loop_returning in H; [ | reflexivity ].
  destruct H as [H _]. now apply H.
Qed.

Lemma match_loop_round_2 (budget n : nat) (your opp : Z) (w : World) :
  match_loop ticks_diff budget (S (S n)) your opp 2 w =
  match_loop ticks_diff budget 2 your opp 2 w.
Proof.
  cbn [match_loop].
  do 5 (apply bind_ext; intros ? ? _).
  apply bind_ext. intros [your' opp' r' c' t' a' d'] w' _.
  change (2 + 1) with 3. apply match_loop_round_3.
Qed.

(** Three rounds are all a match can use: whatever the buttons, the radio
    and the clock do, running the outer loop of [main] with an allowance
    of more than three rounds gives the outcome and the world that an
    allowance of three gives. *)
Theorem no_fourth_round (budget n : nat) (your opp : Z) (w : World) :
  match_loop ticks_diff budget (S (S (S n))) your opp 1 w =
  match_loop ticks_diff budget 3 your opp 1 w.
Proof.
  cbn [match_loop].
  do 5 (apply bind_ext; intros ? ? _).
  apply bind_ext. intros [your' opp' r' c' t' a' d'] w' _.
  change (1 + 1) with 2. apply match_loop_round_2.
Qed.

End Passes.

Lemma first_acknowledgement_witness :
  round_body ticks_diff_wrap (fresh_round "R" 1 0)
             (hearing [Some "X1"] [5000; 5001]) =
    (Ok (acked (fresh_round "R" 1 0)), hearing [] [5000; 5001]).
Proof.
  apply (proj1 (first_acknowledgement ticks_diff_wrap (fresh_round "R" 1 0)
                  (hearing [Some "X1"] [5000; 5001]) []
                  eq_refl ltac:(simpl; lia) eq_refl)).
Defined.

Lemma idle_pass_witness :
  round_body ticks_diff_wrap (fresh_round "P" 2 100)
             (hearing [None] [2101; 2105]) =
    (Ok (resent (fresh_round "P" 2 100) 2105), set_tx ["P2"] silent)
  /\ round_body ticks_diff_wrap (fresh_round "P" 2 100)
                (hearing [None] [2100; 2105]) =
       (Ok (fresh_round "P" 2 100), hearing [] [2105]).
Proof.
  destruct (idle_pass ticks_diff_wrap (fresh_round "P" 2 100)
              (hearing [None] [2101; 2105]) [] eq_refl) as [_ Hlate].
  destruct (idle_pass ticks_diff_wrap (fresh_round "P" 2 100)
              (hearing [None] [2100; 2105]) [] eq_refl) as [_ Hearly].
  split.
  - apply (Hlate eq_refl 2101 2105 [] eq_refl). reflexivity.
  - apply (Hearly eq_refl 2100 2105 [] eq_refl). vm_compute. discriminate.
Defined.


Lemma rejected_message_is_dropped_witness :
  let l := fresh_round "R" 1 0 in
  let w := hearing [Some "S2"] [10] in
  resolutions (after (round_body ticks_diff_wrap l) w) = resolutions w
  /\ rx (after (round_body ticks_diff_wrap l) w) = []
  /\ fst (round_body ticks_diff_wrap l w) = Ok l.
Proof.
  intros l w.
  destruct (rejected_message_is_dropped ticks_diff_wrap l w (Some "S2") []
              eq_refl eq_refl _ _
              (surjective_pairing (round_body ticks_diff_wrap l w)))
    as (H1 & H2 & _).
  split; [ exact H1 | split; [ exact H2 | reflexivity ] ].
Defined.

Lemma round_loop_exit_witness :
  let l := fresh_round "R" 1 0 in
  let w := hearing [Some "S1"; Some "X1"] [10] in
  let l' := acked (scored l (1, 0)) in
  round_loop ticks_diff_wrap 2 l w =
    (Ok l', after (round_loop ticks_diff_wrap 2 l) w)
  /\ acknowledged l' = true /\ resolved l' = true
  /\ your_score l' + opp_score l' <= your_score l + opp_score l + 1.
Proof.
  intros l w l'.
  assert (E : round_loop ticks_diff_wrap 2 l w =
              (Ok l', after (round_loop ticks_diff_wrap 2 l) w))
    by reflexivity.
  destruct (round_loop_exit ticks_diff_wrap 2 l l' w _ E)
    as (H1 & H2 & _ & _ & _ & _ & H3 & _).
  split; [ exact E | split; [ exact H1 | split; [ exact H2 | exact H3 ] ] ].
Defined.

Lemma round_loop_returns_to_continue_witness :
  let l2 := mkLocals 1 0 2 "P" 0 false false in
  let w2 := hearing [Some "P2"; Some "X2"] [10] in
  let l2' := acked (scored l2 (0, 0)) in
  let l3 := mkLocals 1 0 3 "S" 0 false false in
  let w3 := hearing [Some "R3"; Some "X3"] [10] in
  round_loop ticks_diff_wrap 2 l2 w2 =
    (Ok l2', after (round_loop ticks_diff_wrap 2 l2) w2)
  /\ your_score l2' <> 2 /\ opp_score l2' <> 2
  /\ fst (round_loop ticks_diff_wrap 2 l3 w3) = Rebooted
  /\ ~ (exists l' w', round_loop ticks_diff_wrap 2 l3 w3 = (Ok l', w')).
Proof.
  intros l2 w2 l2' l3 w3.
  assert (E : round_loop ticks_diff_wrap 2 l2 w2 =
              (Ok l2', after (round_loop ticks_diff_wrap 2 l2) w2))
    by reflexivity.
  destruct (round_loop_returns_to_continue ticks_diff_wrap 2 l2 l2' w2 _
              eq_refl E) as [_ H2].
  destruct (H2 eq_refl) as [Hy Ho].
  split; [ exact E | split; [ exact Hy | split; [ exact Ho | split ] ] ].
  - reflexivity.
  - intros (l' & w' & E3).
    now apply (proj1 (round_loop_returns_to_continue ticks_diff_wrap 2
                        l3 l' w3 w' eq_refl E3)).
Defined.

Lemma round_completes_witness :
  let l := fresh_round "R" 1 0 in
  let w := hearing [Some "S1"; Some "X1"] [10] in
  round_loop ticks_diff_wrap 2 l w =
    (Ok (acked (scored l (1, 0))),
     flashed 1 (shown (Display_show [Img HAPPY]) (set_tx ["X1"] silent))).
Proof.
  intros l w.
  apply (round_completes ticks_diff_wrap l w Rock Scissors [] 10 [] 0);
    try reflexivity.
  - simpl. lia.
  - simpl. discriminate.
  - simpl. discriminate.
  - vm_compute. discriminate.
Defined.

(** ** The channel, as a function of the pair of players *)

Lemma participant_id_length (s : bytes) :
  participant_id s -> String.length s = 2%nat.
Proof.
  intros (d1 & d2 & H1 & H2 & ->).
  below16 d1 H1; below16 d2 H2; reflexivity.
Qed.

Lemma create_address_exists (A B : bytes) :
  participant_id A -> participant_id B ->
  exists addr, create_address A B = Some addr
               /\ (addr = A ++ B \/ addr = B ++ A).
Proof.
  intros HA HB.
  destruct (participant_id_value A HA) as (a & Ea & _).
  destruct (participant_id_value B HB) as (b & Eb & _).
  unfold create_address. rewrite Ea, Eb.
  destruct (a >? b); eauto.
Qed.

Lemma append_two_inj (A B C D : string) :
  String.length A = 2%nat -> String.length C = 2%nat ->
  A ++ B = C ++ D -> A = C /\ B = D.
Proof.
  intros HA HC E.
  destruct (length_two A HA) as (a1 & a2 & ->).
  destruct (length_two C HC) as (c1 & c2 & ->).
  simpl in E. injection E as -> -> ->. now split.
Qed.

(** The address is four bytes long and tells the pair of players: two
    pairs of participant ids get the same address only if they are the
    same pair, in either order. *)
Theorem create_address_identifies_pair (A B C D : bytes) :
  participant_id A -> participant_id B ->
  participant_id C -> participant_id D ->
  (exists addr, create_address A B = Some addr
                /\ String.length addr = 4%nat)
  /\ (create_address A B = create_address C D ->
      (A = C /\ B = D) \/ (A = D /\ B = C)).
Proof.
  intros HA HB HC HD.
  pose proof (participant_id_length A HA) as LA.
  pose proof (participant_id_length B HB) as LB.
  pose proof (participant_id_length C HC) as LC.
  pose proof (participant_id_length D HD) as LD.
  destruct (create_address_exists A B HA HB) as (x & Ex & Hx).
  destruct (create_address_exists C D HC HD) as (y & Ey & Hy).
  split.
  - exists x. split; [ exact Ex | ].
    destruct (length_two A LA) as (a1 & a2 & ->).
    destruct (length_two B LB) as (b1 & b2 & ->).
    destruct Hx as [-> | ->]; reflexivity.
  - rewrite Ex, Ey. intros [= <-].
    destruct Hx as [-> | ->], Hy as [E | E];
      apply append_two_inj in E; try assumption; destruct E; subst; auto.
Qed.

Lemma create_address_identifies_pair_witness :
  create_address "0a" "2f" <> create_address "0a" "2e".
Proof.
  assert (P : forall d1 d2, 0 <= d1 < 16 -> 0 <= d2 < 16 ->
                            participant_id (hex_last d1 ++ hex_last d2))
    by (intros d1 d2 H1 H2; now exists d1, d2).
  destruct (create_address_identifies_pair "0a" "2f" "0a" "2e"
              (P 0 10 ltac:(lia) ltac:(lia)) (P 2 15 ltac:(lia) ltac:(lia))
              (P 0 10 ltac:(lia) ltac:(lia)) (P 2 14 ltac:(lia) ltac:(lia)))
    as [_ H].
  intros E. destruct (H E) as [[_ K] | [K _]]; discriminate K.
Defined.

Lemma byte_value_bounds (c : ascii) : 0 <= Z.of_N (N_of_ascii c) < 256.
Proof.
  pose proof (N_ascii_bounded c). lia.
Qed.

Lemma from_bytes_little_bounds (b : bytes) :
  0 <= from_bytes_little b < 256 ^ Z.of_nat (String.length b).
Proof.
  induction b as [ | c b IH ]; cbn [from_bytes_little String.length].
  - simpl. lia.
  - pose proof (byte_value_bounds c).
    rewrite Nat2Z.inj_succ, Z.pow_succ_r by lia. lia.
Qed.

Lemma from_bytes_little_inj (b : bytes) :
  forall b' : bytes,
    String.length b = String.length b' ->
    from_bytes_little b = from_bytes_little b' -> b = b'.
Proof.
  induction b as [ | c b IH ]; intros [ | c' b' ] HL E;
    try discriminate HL; [ reflexivity | ].
  cbn [from_bytes_little] in E. injection HL as HL.
  pose proof (byte_value_bounds c). pose proof (byte_value_bounds c').
  assert (Ec : Z.of_N (N_of_ascii c) = Z.of_N (N_of_ascii c')) by lia.
  assert (Eb : from_bytes_little b = from_bytes_little b') by lia.
  f_equal.
  - apply N2Z.inj in Ec. rewrite <- (ascii_N_embedding c).
    rewrite <- (ascii_N_embedding c'). now rewrite Ec.
  - now apply IH.
Qed.

(** The number [main] hands to [radio.config], the address read as a
    little-endian integer, fits 32 bits, and it too tells the pair of
    players: two pairs of participant ids are configured with the same
    number only if they are the same pair. *)
Theorem radio_address_identifies_pair (A B C D x y : bytes) :
  participant_id A -> participant_id B ->
  participant_id C -> participant_id D ->
  create_address A B = Some x -> create_address C D = Some y ->
  0 <= from_bytes_little x < 2 ^ 32
  /\ (from_bytes_little x = from_bytes_little y ->
      (A = C /\ B = D) \/ (A = D /\ B = C)).
Proof.
  intros HA HB HC HD Ex Ey.
  assert (L : forall P Q z, participant_id P -> participant_id Q ->
                create_address P Q = Some z -> String.length z = 4%nat).
  { intros P Q z HP HQ Ez.
    destruct (create_address_exists P Q HP HQ) as (z' & Ez' & Hz).
    assert (z' = z) by congruence. subst z'.
    pose proof (participant_id_length P HP) as LP.
    pose proof (participant_id_length Q HQ) as LQ.
    destruct (length_two P LP) as (p1 & p2 & ->).
    destruct (length_two Q LQ) as (q1 & q2 & ->).
    destruct Hz as [-> | ->]; reflexivity. }
  pose proof (L A B x HA HB Ex) as Lx.
  pose proof (L C D y HC HD Ey) as Ly.
  split.
  - pose proof (from_bytes_little_bounds x) as Hb. rewrite Lx in Hb.
    change (256 ^ Z.of_nat 4) with (2 ^ 32) in Hb. exact Hb.
  - intros E. apply from_bytes_little_inj in E; [ | congruence ].
    subst y.
    assert (Eaddr : create_address A B = create_address C D) by congruence.
    pose proof (participant_id_length A HA) as LA.
    pose proof (participant_id_length B HB) as LB.
    pose proof (participant_id_length C HC) as LC.
    pose proof (participant_id_length D HD) as LD.
    destruct (create_address_exists A B HA HB) as (x' & Ex' & Hx).
    destruct (create_address_exists C D HC HD) as (y' & Ey' & Hy).
    assert (x' = x) by congruence. assert (y' = x) by congruence.
    subst x' y'.
    destruct Hx as [-> | ->], Hy as [E | E];
      apply append_two_inj in E; try assumption; destruct E; subst; auto.
Qed.

Lemma radio_address_identifies_pair_witness :
  0 <= from_bytes_little "0a2f" < 2 ^ 32.
Proof.
  assert (P : forall d1 d2, 0 <= d1 < 16 -> 0 <= d2 < 16 ->
                            participant_id (hex_last d1 ++ hex_last d2))
    by (intros d1 d2 H1 H2; now exists d1, d2).
  exact (proj1 (radio_address_identifies_pair "0a" "2f" "2f" "0a"
                  "0a2f" "0a2f"
                  (P 0 10 ltac:(lia) ltac:(lia)) (P 2 15 ltac:(lia) ltac:(lia))
                  (P 2 15 ltac:(lia) ltac:(lia)) (P 0 10 ltac:(lia) ltac:(lia))
                  eq_refl eq_refl)).
Defined.

(** ** What the buttons select *)

Lemma button_a_polled (w w1 : World) (a : bool) :
  microbit.button_a_was_pressed w = (Ok a, w1) ->
  button_a w = a :: button_a w1 /\ w1 = set_button_a (button_a w1) w.
Proof.
  unfold microbit.button_a_was_pressed.
  destruct (button_a w) as [ | p rest ] eqn:E; intros [= <- <-].
  now split.
Qed.

Lemma button_b_polled (w w1 : World) (b : bool) :
  microbit.button_b_was_pressed w = (Ok b, w1) ->
  button_b w = b :: button_b w1 /\ w1 = set_button_b (button_b w1) w.
Proof.
  unfold microbit.button_b_was_pressed.
  destruct (button_b w) as [ | p rest ] eqn:E; intros [= <- <-].
  now split.
Qed.

Lemma polled_last (a : bool) (w w' : World) :
  button_a w = a :: button_a w' -> button_b w = true :: button_b w' ->
  rx w' = rx w -> tx w' = tx w -> clock w' = clock w ->
  polled [a] [true] w w'.
Proof. intros Ha Hb Hr Ht Hc. now repeat split. Qed.

Lemma polled_more (a : bool) (used_a used_b : list bool) (w w1 w' : World) :
  button_a w = a :: button_a w1 -> button_b w = false :: button_b w1 ->
  rx w1 = rx w -> tx w1 = tx w -> clock w1 = clock w ->
  polled used_a used_b w1 w' ->
  polled (a :: used_a) (false :: used_b) w w'.
Proof.
  intros Ha Hb Hr Ht Hc (Pa & Pb & Pl & Pu & Pr & Pt & Pc).
  repeat split; try congruence.
  - rewrite Ha, Pa. reflexivity.
  - rewrite Hb, Pb. reflexivity.
  - simpl. now rewrite Pl.
  - destruct used_b as [ | b0 used_b ].
    + destruct (repeat false (List.length (@nil bool) - 1)); discriminate Pu.
    + simpl. simpl in Pu. rewrite Nat.sub_0_r in *. now rewrite <- Pu.
Qed.

Lemma presses_cons (a : bool) (l : list bool) :
  presses (a :: l) = ((if a then 1 else 0) + presses l)%nat.
Proof. unfold presses. simpl. destruct a; reflexivity. Qed.

Lemma in_step_next (num : Z) (play : string) :
  in_step num play ->
  (if (num + 1) mod 3 =? 2 then "R"
   else if (num + 1) mod 3 =? 0 then "P" else "S") = next_play play
  /\ in_step (num + 1) (next_play play).
Proof.
  unfold in_step. rewrite (Z.add_mod num 1 3) by lia.
  intros [[E [-> | ->]] | [[E ->] | [E ->]]]; rewrite E; simpl;
    (split; [ reflexivity | ]); tauto.
Qed.

Lemma choose_play_loop_counts (budget : nat) :
  forall (num : Z) (play p : string) (w w' : World),
    in_step num play ->
    choose_play_loop budget num play w = (Ok p, w') ->
    exists used_a used_b,
      polled used_a used_b w w'
      /\ p = Nat.iter (presses used_a) next_play play.
Proof.
  induction budget as [ | budget IH ]; intros num play p w w' Hin H;
    cbn [choose_play_loop] in H; [ discriminate H | ].
  apply bind_ok in H as (u & w1 & Hs & H). injection Hs as _ <-.
  apply bind_ok in H as (a & w2 & Ha & H).
  apply button_a_polled in Ha as [Ha Hw2].
  apply bind_ok in H as ([num1 play1] & w3 & Hsel & H).
  assert (Hsel' : in_step num1 play1
                  /\ play1 = Nat.iter (if a then 1 else 0)%nat next_play play
                  /\ w3 = set_screen (screen w3) w2).
  { destruct a.
    - destruct (in_step_next num play Hin) as [En Hn].
      destruct ((num + 1) mod 3 =? 2); [ | destruct ((num + 1) mod 3 =? 0) ];
        apply bind_ok in Hsel as (u' & w4 & Hd & Hsel);
        injection Hd as _ <-; injection Hsel as <- <- <-;
        (split; [ rewrite En; exact Hn
                | split; [ exact En | reflexivity ] ]).
    - injection Hsel as <- <- <-.
      split; [ exact Hin | split; [ reflexivity | now destruct w2 ] ]. }
  destruct Hsel' as (Hin1 & Ep & Hw3).
  apply bind_ok in H as (b & w4 & Hb & H).
  apply button_b_polled in Hb as [Hb Hw4].
  assert (F4 : button_a w = a :: button_a w4
               /\ button_b w = b :: button_b w4
               /\ rx w4 = rx w /\ tx w4 = tx w /\ clock w4 = clock w).
  { rewrite Hw4, Hw3, Hw2. simpl. rewrite Hw3 in Hb. simpl in Hb.
    rewrite Hw2 in Hb. simpl in Hb. repeat split; assumption. }
  destruct F4 as (Fa & Fb & Fr & Ft & Fc).
  destruct b.
  - simpl in H. injection H as <- <-.
    exists [a], [true]. split.
    + apply polled_last; simpl; assumption.
    + rewrite presses_cons. unfold presses. simpl.
      rewrite Nat.add_0_r. exact Ep.
  - destruct (IH num1 play1 p w4 w' Hin1 H) as (ua & ub & Hp & E).
    exists (a :: ua), (false :: ub). split.
    + now apply (polled_more a ua ub w w4 w').
    + rewrite presses_cons, E, Ep. destruct a.
      * change (1 + presses ua)%nat with (S (presses ua)).
        now rewrite (Nat.iter_succ_r (presses ua)).
      * reflexivity.
Qed.

(** The play [choose_play] returns is told by the number of polls that
    found button A pressed up to the poll that found button B pressed
    (the poll of A in that same pass included): none gives the empty
    byte string, and each press moves the selection on, to R first and
    then round R, P, S.  The procedure uses as many polls of one button
    as of the other, and neither the radio nor the clock. *)
Theorem choose_play_counts_presses (budget : nat) (w w' : World) (p : bytes) :
  choose_play budget w = (Ok p, w') ->
  exists used_a used_b,
    polled used_a used_b w w'
    /\ p = Nat.iter (presses used_a) next_play ""
    /\ (presses used_a = 0%nat <-> p = "").
Proof.
  intros H. unfold choose_play in H.
  apply choose_play_loop_counts in H as (ua & ub & Hp & E);
    [ | left; split; [ reflexivity | now left ] ].
  exists ua, ub. split; [ exact Hp | split; [ exact E | ] ].
  rewrite E. destruct (presses ua) as [ | n ]; [ now split | ].
  split; [ discriminate | ].
  simpl. unfold next_play at 1.
  destruct (_ =? "R")%string; [ discriminate | ].
  destruct (_ =? "P")%string; discriminate.
Qed.

Lemma choose_play_counts_presses_witness :
  let w := set_button_b [false; false; false; false; true]
             (set_button_a [true; true; false; true; true] silent) in
  choose_play 9 w = (Ok "R", after (choose_play 9) w)
  /\ exists used_a used_b,
       polled used_a used_b w (after (choose_play 9) w)
       /\ "R" = Nat.iter (presses used_a) next_play "".
Proof.
  intros w.
  assert (E : choose_play 9 w = (Ok "R", after (choose_play 9) w))
    by (vm_compute; reflexivity).
  split; [ exact E | ].
  destruct (choose_play_counts_presses 9 w _ "R" E)
    as (ua & ub & Hp & Hi & _).
  now exists ua, ub.
Defined.

Lemma dialled_facts (idx d1 d2 : Z) (c : nat) :
  idx = 0 \/ idx = 1 -> 0 <= d1 < 16 -> 0 <= d2 < 16 ->
  (idx <? Z.of_nat (List.length [d1; d2])) = true
  /\ getitem [d1; d2] idx = Some (if idx =? 0 then d1 else d2)
  /\ setitem [d1; d2] (Z.to_nat idx)
             (((if idx =? 0 then d1 else d2) + 1) mod 16) =
       dialled idx 1 d1 d2
  /\ [d1; d2] = dialled idx 0 d1 d2
  /\ exists e1 e2,
       dialled idx c d1 d2 = [e1; e2] /\ 0 <= e1 < 16 /\ 0 <= e2 < 16
       /\ forall c', dialled idx c' e1 e2 = dialled idx (c + c') d1 d2.
Proof.
  intros [-> | ->] H1 H2; unfold dialled; simpl;
    (split; [ reflexivity | split; [ reflexivity | split; [ reflexivity | ] ] ]);
    rewrite ?Z.add_0_r, ?Z.mod_small by lia;
    (split; [ reflexivity | ]).
  - exists ((d1 + Z.of_nat c) mod 16), d2.
    split; [ reflexivity | split; [ apply Z.mod_pos_bound; lia | ] ].
    split; [ exact H2 | ]. intros c'.
    now rewrite Z.add_mod_idemp_l, Nat2Z.inj_add, Z.add_assoc by lia.
  - exists d1, ((d2 + Z.of_nat c) mod 16).
    split; [ reflexivity | split; [ exact H1 | ] ].
    split; [ apply Z.mod_pos_bound; lia | ]. intros c'.
    now rewrite Z.add_mod_idemp_l, Nat2Z.inj_add, Z.add_assoc by lia.
Qed.

(** One digit of [choose_opponent]: the loop polls the buttons until B is
    found pressed, and goes on to the next digit with this one advanced
    by the number of polls that found A pressed, modulo 16. *)
Lemma digit_phase (budget : nat) :
  forall (d1 d2 idx : Z) (w w' : World) (num' : list Z),
    idx = 0 \/ idx = 1 -> 0 <= d1 < 16 -> 0 <= d2 < 16 ->
    choose_opponent_loop budget [d1; d2] idx w = (Ok num', w') ->
    exists used_a used_b budget' w1,
      polled used_a used_b w w1
      /\ choose_opponent_loop budget' (dialled idx (presses used_a) d1 d2)
                              (idx + 1) w1 = (Ok num', w').
Proof.
  induction budget as [ | budget IH ]; intros d1 d2 idx w w' num' Hi H1 H2 H;
    cbn [choose_opponent_loop] in H;
    destruct (dialled_facts idx d1 d2 0 Hi H1 H2) as (Flt & Fget & Fset & F0 & _);
    rewrite Flt in H; [ discriminate H | ].
  apply bind_ok in H as (u & w1 & Hs & H). injection Hs as _ <-.
  rewrite Fget in H. cbn [or_raise] in H.
  apply bind_ok in H as (d & w2 & Hd & H). injection Hd as <- <-.
  apply bind_ok in H as (u2 & w3 & Hd & H). injection Hd as _ <-.
  apply bind_ok in H as (a & w4 & Ha & H).
  apply button_a_polled in Ha as [Ha Hw4]. simpl in Ha.
  apply bind_ok in H as (num1 & w5 & Hnum & H).
  assert (Hn : num1 = dialled idx (if a then 1 else 0)%nat d1 d2 /\ w5 = w4).
  { destruct a.
    - apply bind_ok in Hnum as (d' & w6 & Hd & Hnum).
      unfold ret in Hd, Hnum.
      assert (Ed : d' = (if idx =? 0 then d1 else d2) /\ w6 = w4)
        by (split; congruence).
      destruct Ed as [-> ->]. rewrite Fset in Hnum.
      split; congruence.
    - injection Hnum as <- <-. now split. }
  destruct Hn as [-> ->].
  apply bind_ok in H as (b & w6 & Hb & H).
  apply button_b_polled in Hb as [Hb Hw6].
  assert (F6 : button_a w = a :: button_a w6
               /\ button_b w = b :: button_b w6
               /\ rx w6 = rx w /\ tx w6 = tx w /\ clock w6 = clock w).
  { rewrite Hw6, Hw4. simpl. rewrite Hw4 in Hb. simpl in Hb.
    repeat split; assumption. }
  destruct F6 as (Fa & Fb & Fr & Ft & Fc).
  destruct b.
  - apply bind_ok in H as (u3 & w7 & Hd & H). injection Hd as _ <-.
    exists [a], [true], budget,
           (set_screen (screen w6 ++ [Display_show [Txt "X"]]) w6).
    split; [ apply polled_last; simpl; assumption | ].
    rewrite presses_cons. unfold presses. simpl List.length.
    now rewrite Nat.add_0_r.
  - destruct (dialled_facts idx d1 d2 (if a then 1 else 0)%nat Hi H1 H2)
      as (_ & _ & _ & _ & e1 & e2 & Ee & K1 & K2 & Kc).
    rewrite Ee in H.
    destruct (IH e1 e2 idx w6 w' num' Hi K1 K2 H)
      as (ua & ub & budget' & w1 & Hp & Hrest).
    exists (a :: ua), (false :: ub), budget', w1.
    split; [ now apply (polled_more a ua ub w w6 w1) | ].
    now rewrite presses_cons, <- Kc.
Qed.

(** The id [choose_opponent] returns is dialled digit by digit: the
    button scripts split into a first and a second run of polls, each
    ending with the poll that finds B pressed, and each digit is the
    number of polls of its run that found A pressed, modulo 16, in
    lower-case hexadecimal.  Neither the radio nor the clock is used. *)
Theorem choose_opponent_counts_presses (budget : nat) (w w' : World)
        (s : bytes) :
  choose_opponent budget w = (Ok s, w') ->
  exists (a1 b1 a2 b2 : list bool) (w1 : World),
    polled a1 b1 w w1 /\ polled a2 b2 w1 w'
    /\ s = hex_last (Z.of_nat (presses a1) mod 16)
           ++ hex_last (Z.of_nat (presses a2) mod 16).
Proof.
  unfold choose_opponent. intros H.
  apply bind_ok in H as (num & v & Hloop & H).
  apply bind_ok in H as (u & v' & Hd & H).
  injection Hd as _ <-. injection H as <- <-.
  apply digit_phase in Hloop; try lia.
  destruct Hloop as (a1 & b1 & budget1 & w1 & P1 & Hloop).
  unfold dialled in Hloop. simpl in Hloop.
  apply digit_phase in Hloop;
    try lia; try (apply Z.mod_pos_bound; lia).
  destruct Hloop as (a2 & b2 & budget2 & w2 & P2 & Hloop).
  unfold dialled in Hloop. simpl in Hloop.
  assert (Hend : num = [Z.of_nat (presses a1) mod 16;
                        Z.of_nat (presses a2) mod 16] /\ v = w2)
    by (destruct budget2; simpl in Hloop; injection Hloop as <- <-;
        now split).
  destruct Hend as [-> ->].
  exists a1, b1, a2, b2, w1. split; [ exact P1 | split ].
  - destruct P2 as (Pa & Pb & Pl & Pu & Pr & Pt & Pc). now repeat split.
  - reflexivity.
Qed.

Lemma choose_opponent_counts_presses_witness :
  let w := set_button_b ([false; true] ++ repeat false 17 ++ [true])
             (set_button_a ([true; false] ++ repeat true 17 ++ [false])
                           silent) in
  choose_opponent 30 w = (Ok "11", after (choose_opponent 30) w)
  /\ exists (a1 b1 a2 b2 : list bool) (w1 : World),
       polled a1 b1 w w1 /\ polled a2 b2 w1 (after (choose_opponent 30) w)
       /\ "11" = hex_last (Z.of_nat (presses a1) mod 16)
                 ++ hex_last (Z.of_nat (presses a2) mod 16).
Proof.
  intros w.
  assert (E : choose_opponent 30 w = (Ok "11", after (choose_opponent 30) w))
    by (vm_compute; reflexivity).
  split; [ exact E | ].
  exact (choose_opponent_counts_presses 30 w _ "11" E).
Defined.

(** ** How the program can end *)

Lemma ends_ret {A : Type} (allowed : stop -> Prop) (post : A -> Prop) (a : A) :
  post a -> ends_in allowed post (ret a).
Proof. intros H w. exact H. Qed.

Lemma ends_bind {A B : Type} (allowed : stop -> Prop) (mid : A -> Prop)
      (post : B -> Prop) (c : M A) (k : A -> M B) :
  ends_in allowed mid c ->
  (forall a, mid a -> ends_in allowed post (k a)) ->
  ends_in allowed post (bind c k).
Proof.
  intros Hc Hk w. specialize (Hc w). unfold bind.
  destruct (c w) as [[a | e | | ] w1]; simpl in *; auto.
  apply (Hk a Hc w1).
Qed.

Lemma ends_weaken {A : Type} (allowed allowed' : stop -> Prop)
      (post post' : A -> Prop) (c : M A) :
  (forall s, allowed s -> allowed' s) -> (forall a, post a -> post' a) ->
  ends_in allowed post c -> ends_in allowed' post' c.
Proof.
  intros He Ha H w. specialize (H w).
  destruct (fst (c w)); auto.
Qed.

Lemma ends_allow {A : Type} (allowed allowed' : stop -> Prop)
      (post : A -> Prop) (c : M A) :
  (forall s, allowed s -> allowed' s) ->
  ends_in allowed post c -> ends_in allowed' post c.
Proof. intros H. apply ends_weaken; auto. Qed.

Lemma no_stop_weaken {A : Type} (allowed : stop -> Prop) (post : A -> Prop)
      (c : M A) :
  ends_in no_stop post c -> ends_in allowed post c.
Proof. apply ends_weaken; [ intros s [] | auto ]. Qed.

Lemma ends_pending {A : Type} (allowed : stop -> Prop) (post : A -> Prop) :
  ends_in allowed post pending.
Proof. intros w. exact I. Qed.

Lemma ends_display (d : display_call) :
  ends_in no_stop (fun _ => True) (microbit.display d).
Proof. intros w. exact I. Qed.

Lemma ends_sleep (ms : Z) : ends_in no_stop (fun _ => True) (microbit.sleep ms).
Proof. intros w. exact I. Qed.

Lemma ends_button_a :
  ends_in no_stop (fun _ => True) microbit.button_a_was_pressed.
Proof.
  intros w. unfold microbit.button_a_was_pressed.
  destruct (button_a w); exact I.
Qed.

Lemma ends_button_b :
  ends_in no_stop (fun _ => True) microbit.button_b_was_pressed.
Proof.
  intros w. unfold microbit.button_b_was_pressed.
  destruct (button_b w); exact I.
Qed.

Lemma ends_send_bytes (m : bytes) :
  ends_in no_stop (fun _ => True) (radio.send_bytes m).
Proof. intros w. exact I. Qed.

Lemma ends_receive_bytes : ends_in no_stop (fun _ => True) radio.receive_bytes.
Proof.
  intros w. unfold radio.receive_bytes. destruct (rx w); exact I.
Qed.

Lemma ends_config (addr : Z) :
  ends_in no_stop (fun _ => True) (radio.config addr).
Proof. intros w. exact I. Qed.

Lemma ends_ticks_ms : ends_in no_stop (fun _ => True) utime.ticks_ms.
Proof.
  intros w. unfold utime.ticks_ms. destruct (clock w); exact I.
Qed.

Lemma ends_reset {A : Type} (post : A -> Prop) :
  ends_in only_reset post microbit.reset.
Proof. intros w. reflexivity. Qed.

Ltac ends_prim :=
  lazymatch goal with
  | |- ends_in _ _ (microbit.display _) => apply no_stop_weaken, ends_display
  | |- ends_in _ _ (microbit.sleep _) => apply no_stop_weaken, ends_sleep
  | |- ends_in _ _ microbit.button_a_was_pressed =>
      apply no_stop_weaken, ends_button_a
  | |- ends_in _ _ microbit.button_b_was_pressed =>
      apply no_stop_weaken, ends_button_b
  | |- ends_in _ _ (radio.send_bytes _) => apply no_stop_weaken, ends_send_bytes
  | |- ends_in _ _ radio.receive_bytes =>
      apply no_stop_weaken, ends_receive_bytes
  | |- ends_in _ _ (radio.config _) => apply no_stop_weaken, ends_config
  | |- ends_in _ _ utime.ticks_ms => apply no_stop_weaken, ends_ticks_ms
  | |- ends_in _ _ microbit.reset => apply ends_reset
  | |- ends_in _ _ pending => apply ends_pending
  end.

Ltac ends_steps :=
  repeat lazymatch goal with
    | |- ends_in _ _ (ret _) => apply ends_ret; try exact I
    | |- ends_in _ _ (bind _ _) => eapply ends_bind; [ ends_prim | intros ? _ ]
    | |- ends_in _ _ _ => ends_prim
    end.

Lemma ends_for_range (allowed : stop -> Prop) (times : nat) (body : M unit) :
  ends_in allowed (fun _ => True) body ->
  ends_in allowed (fun _ => True) (for_range times body).
Proof.
  intros H. induction times as [ | n IH ]; simpl.
  - now apply ends_ret.
  - eapply ends_bind; [ exact H | intros _ _; exact IH ].
Qed.

Lemma ends_send_choice (play : bytes) (r : Z) :
  ends_in no_stop (fun _ => True) (send_choice play r).
Proof. unfold send_choice. ends_steps. Qed.

Lemma ends_parse_message (r : Z) :
  ends_in no_stop (fun _ => True) (parse_message r).
Proof.
  unfold parse_message. eapply ends_bind; [ ends_prim | intros message _ ].
  destruct message as [m | ]; [ | ends_steps ].
  destruct (negb (len m =? 2) || negb (slice 1 2 m =? str r)%string);
    [ ends_steps | ].
  destruct (mem (slice 0 1 m) RPS);
    [ unfold send_acknowledgement; ends_steps | ].
  destruct (slice 0 1 m =? "X")%string; ends_steps.
Qed.

Lemma ends_resolve (my opp : bytes) :
  ends_in only_ValueError (fun _ => True) (resolve my opp).
Proof.
  intros w.
  destruct (resolve_cases my opp w)
    as [(a & b & face & _ & _ & _ & E) | (_ & E)]; rewrite E.
  - exact I.
  - reflexivity.
Qed.

Lemma ends_display_score (my opp r : Z) (times : nat) :
  ends_in only_reset (fun _ => True) (display_score my opp r times).
Proof.
  unfold display_score. eapply ends_bind; [ ends_prim | intros _ _ ].
  assert (Ha : forall text,
             ends_in only_reset (fun _ : unit => True)
               (for_range times
                  (microbit.display (Display_scroll text) ;;
                   microbit.display (Display_show [Img screen_off]) ;;
                   microbit.sleep 333 ;;
                   microbit.reset)))
    by (intros text; apply ends_for_range; ends_steps).
  destruct (r =? 2); [ destruct (my =? 2); [ | destruct (opp =? 2) ] | ];
    try apply Ha; try (now apply ends_ret).
  destruct (r =? 3); [ | now apply ends_ret ].
  destruct (my >? opp); [ apply Ha | ].
  destruct (opp >? my); [ apply Ha | ].
  destruct (opp =? my); [ apply Ha | now apply ends_ret ].
Qed.

Lemma ends_process_message (l : Locals) (message : option bytes) :
  ends_in reset_or_ValueError (fun _ => True) (process_message l message).
Proof.
  unfold process_message.
  destruct (truthy message); [ | now apply ends_ret ].
  destruct (mem _ RPS && Bool.eqb (resolved l) false).
  - apply (ends_bind _ (fun _ => True)).
    + apply (ends_allow only_ValueError);
        [ intros s ->; now right | apply ends_resolve ].
    + intros [p q] _. apply (ends_bind _ (fun _ => True)).
      * apply (ends_allow only_reset);
          [ intros s ->; now left | apply ends_display_score ].
      * intros _ _. now apply ends_ret.
  - destruct ((_ =? "X")%string && Bool.eqb (acknowledged l) false);
      now apply ends_ret.
Qed.

Lemma ends_choose_opponent_loop (budget : nat) :
  forall d1 d2 idx : Z,
    0 <= d1 < 16 -> 0 <= d2 < 16 -> 0 <= idx ->
    ends_in no_stop
      (fun num => exists e1 e2,
           num = [e1; e2] /\ 0 <= e1 < 16 /\ 0 <= e2 < 16)
      (choose_opponent_loop budget [d1; d2] idx).
Proof.
  induction budget as [ | budget IH ]; intros d1 d2 idx H1 H2 Hi;
    cbn [choose_opponent_loop];
    destruct (Z.ltb_spec idx (Z.of_nat (List.length [d1; d2]))) as [Hlt | _];
    try (apply ends_ret; now exists d1, d2); [ apply ends_pending | ].
  simpl in Hlt.
  eapply ends_bind; [ ends_prim | intros _ _ ].
  assert (Hget : exists d, getitem [d1; d2] idx = Some d /\ 0 <= d < 16
                           /\ exists e1 e2,
                                setitem [d1; d2] (Z.to_nat idx)
                                        ((d + 1) mod 16) = [e1; e2]
                                /\ 0 <= e1 < 16 /\ 0 <= e2 < 16).
  { assert (idx = 0 \/ idx = 1) as [-> | ->] by lia.
    - exists d1. repeat split; try lia.
      exists ((d1 + 1) mod 16), d2. repeat split; try lia;
        apply Z.mod_pos_bound; lia.
    - exists d2. repeat split; try lia.
      exists d1, ((d2 + 1) mod 16). repeat split; try lia;
        apply Z.mod_pos_bound; lia. }
  destruct Hget as (d & Hd & Hdb & e1 & e2 & Hset & K1 & K2).
  rewrite Hd. cbn [or_raise].
  apply (ends_bind _ (fun x => x = d)); [ now apply ends_ret | intros ? -> ].
  eapply ends_bind; [ ends_prim | intros _ _ ].
  eapply ends_bind; [ ends_prim | intros a _ ].
  apply (ends_bind _ (fun num => exists e1 e2,
                          num = [e1; e2] /\ 0 <= e1 < 16 /\ 0 <= e2 < 16)).
  - destruct a.
    + apply (ends_bind _ (fun x => x = d));
        [ now apply ends_ret | intros ? -> ].
      apply ends_ret. rewrite Hset. now exists e1, e2.
    + apply ends_ret. now exists d1, d2.
  - intros num (f1 & f2 & -> & F1 & F2).
    eapply ends_bind; [ ends_prim | intros b _ ].
    destruct b.
    + eapply ends_bind; [ ends_prim | intros _ _ ]. apply IH; lia.
    + now apply IH.
Qed.

Lemma ends_choose_opponent (budget : nat) :
  ends_in no_stop participant_id (choose_opponent budget).
Proof.
  unfold choose_opponent.
  eapply ends_bind; [ apply ends_choose_opponent_loop; lia | ].
  intros num (e1 & e2 & -> & K1 & K2).
  eapply ends_bind; [ ends_prim | intros _ _ ].
  apply ends_ret. exists e1, e2. repeat split; lia.
Qed.

Lemma ends_choose_play_loop (budget : nat) :
  forall (num : Z) (play : string),
    In play [""; "R"; "P"; "S"] ->
    ends_in no_stop (fun p => In p [""; "R"; "P"; "S"])
            (choose_play_loop budget num play).
Proof.
  induction budget as [ | budget IH ]; intros num play Hp;
    cbn [choose_play_loop]; [ apply ends_pending | ].
  eapply ends_bind; [ ends_prim | intros _ _ ].
  eapply ends_bind; [ ends_prim | intros a _ ].
  apply (ends_bind _ (fun np : Z * string =>
                          In (snd np) [""; "R"; "P"; "S"])).
  - destruct a; [ | now apply ends_ret ].
    destruct ((num + 1) mod 3 =? 2); [ | destruct ((num + 1) mod 3 =? 0) ];
      (eapply ends_bind; [ ends_prim | intros _ _ ]);
      apply ends_ret; simpl; tauto.
  - intros [num1 play1] Hp1. simpl in Hp1.
    eapply ends_bind; [ ends_prim | intros b _ ].
    destruct b; [ | now apply IH ].
    eapply ends_bind; [ apply ends_for_range; ends_steps | intros _ _ ].
    eapply ends_bind; [ ends_prim | intros _ _ ].
    now apply ends_ret.
Qed.

Lemma ends_choose_play (budget : nat) :
  ends_in no_stop (fun p => In p RPS \/ p = "") (choose_play budget).
Proof.
  unfold choose_play.
  eapply ends_weaken; [ | | apply ends_choose_play_loop; simpl; tauto ].
  - auto.
  - unfold RPS. simpl. intuition.
Qed.

(** The two selection procedures cannot fail: whatever the buttons do,
    each of them returns or is still waiting for button B; neither raises
    (the digit index of [choose_opponent] stays inside the list) and
    neither resets the board.  What [choose_opponent] returns is a
    participant id; what [choose_play] returns is a move or the empty
    byte string. *)
Theorem selection_never_fails (budget : nat) (w : World) :
  (fst (choose_opponent budget w) = Pending
   \/ exists s, fst (choose_opponent budget w) = Ok s /\ participant_id s)
  /\ (fst (choose_play budget w) = Pending
      \/ exists p, fst (choose_play budget w) = Ok p
                   /\ (In p RPS \/ p = "")).
Proof.
  split.
  - pose proof (ends_choose_opponent budget w) as H.
    destruct (fst (choose_opponent budget w)) as [s | e | | ];
      [ right; now exists s | destruct H | destruct H | now left ].
  - pose proof (ends_choose_play budget w) as H.
    destruct (fst (choose_play budget w)) as [p | e | | ];
      [ right; now exists p | destruct H | destruct H | now left ].
Qed.

Section Endings.

Variable ticks_diff : Z -> Z -> Z.

Lemma ends_resend_if_due (l : Locals) :
  ends_in no_stop (fun _ => True) (resend_if_due ticks_diff l).
Proof.
  unfold resend_if_due.
  destruct (Bool.eqb (acknowledged l) false); [ | now apply ends_ret ].
  eapply ends_bind; [ ends_prim | intros t _ ].
  destruct (ticks_diff t (send_time l) >? 2000); [ | now apply ends_ret ].
  eapply ends_bind; [ apply ends_send_choice | intros ? _ ].
  now apply ends_ret.
Qed.

Lemma ends_round_body (l : Locals) :
  ends_in reset_or_ValueError (fun _ => True) (round_body ticks_diff l).
Proof.
  unfold round_body.
  eapply ends_bind;
    [ apply no_stop_weaken, ends_parse_message | intros message _ ].
  eapply ends_bind; [ apply ends_process_message | intros l1 _ ].
  apply no_stop_weaken, ends_resend_if_due.
Qed.

Lemma ends_round_loop (budget : nat) :
  forall l, ends_in reset_or_ValueError (fun _ => True)
                    (round_loop ticks_diff budget l).
Proof.
  induction budget as [ | budget IH ]; intros l; cbn [round_loop];
    destruct (negb (acknowledged l && resolved l));
    try (now apply ends_ret); try apply ends_pending.
  eapply ends_bind; [ apply ends_round_body | intros l1 _; apply IH ].
Qed.

Lemma ends_match_loop (budget rounds : nat) :
  forall your opp r : Z,
    ends_in reset_or_ValueError (fun _ : unit => False)
            (match_loop ticks_diff budget rounds your opp r).
Proof.
  induction rounds as [ | rounds IH ]; intros your opp r; cbn [match_loop];
    [ apply ends_pending | ].
  eapply ends_bind; [ ends_prim | intros _ _ ].
  eapply ends_bind; [ ends_prim | intros _ _ ].
  eapply ends_bind;
    [ apply no_stop_weaken, ends_choose_play | intros play _ ].
  eapply ends_bind;
    [ apply no_stop_weaken, ends_send_choice | intros t _ ].
  eapply ends_bind; [ ends_prim | intros _ _ ].
  eapply ends_bind; [ apply ends_round_loop | ].
  intros [your' opp' r' c' t' a' d'] _. apply IH.
Qed.

Lemma main_after_dialling (budget : nat) (w w1 : World) (s : bytes) :
  choose_opponent budget w = (Ok s, w1) ->
  exists addr,
    create_address MYID s = Some addr
    /\ (addr = MYID ++ s \/ addr = s ++ MYID)
    /\ main ticks_diff budget w =
         match_loop ticks_diff budget budget 0 0 1
                    (set_address (Some (from_bytes_little addr)) w1).
Proof.
  intros H.
  pose proof (choose_opponent_participant_id budget w w1 s H) as Hs.
  destruct (create_address_exists MYID s MYID_participant_id Hs)
    as (addr & E & Haddr).
  exists addr. split; [ exact E | split; [ exact Haddr | ] ].
  unfold main. unfold bind at 1. rewrite H, E. reflexivity.
Qed.

(** However the buttons, the radio and the clock behave, [main] ends in
    one of three ways: the board is reset (the match was decided), the
    program is still waiting, or [ValueError] is raised.  It never
    returns and never raises [IndexError].  The address is never what
    fails: whatever id [choose_opponent] returns, [create_address] on
    [MYID] and that id yields an address, one of the two concatenations,
    and [main] is from there on the match loop at 0-0 in round 1 with the
    radio configured to that address; while no id has been dialled [main]
    is still waiting. *)
Theorem main_outcomes (budget : nat) (w : World) :
  (fst (main ticks_diff budget w) = Rebooted
   \/ fst (main ticks_diff budget w) = Pending
   \/ fst (main ticks_diff budget w) = Raised ValueError)
  /\ (forall s w1, choose_opponent budget w = (Ok s, w1) ->
       exists addr,
         create_address MYID s = Some addr
         /\ (addr = MYID ++ s \/ addr = s ++ MYID)
         /\ main ticks_diff budget w =
              match_loop ticks_diff budget budget 0 0 1
                         (set_address (Some (from_bytes_little addr)) w1))
  /\ (forall w1, choose_opponent budget w = (Pending, w1) ->
       main ticks_diff budget w = (Pending, w1)).
Proof.
  split; [ | split ].
  - assert (H : ends_in reset_or_ValueError (fun _ : unit => False)
                        (main ticks_diff budget)).
    { unfold main.
      eapply ends_bind;
        [ apply no_stop_weaken, ends_choose_opponent | intros s Hs ].
      pose proof (create_address_exists MYID s MYID_participant_id Hs)
        as (addr & E & _).
      rewrite E. cbn [or_raise].
      apply (ends_bind _ (fun _ => True)); [ now apply ends_ret | intros ? _ ].
      eapply ends_bind; [ ends_prim | intros _ _ ].
      apply ends_match_loop. }
    specialize (H w).
    destruct (fst (main ticks_diff budget w)) as [[] | e | | ].
    + destruct H.
    + destruct H as [H | H]; [ discriminate H | ].
      injection H as ->. auto.
    + auto.
    + auto.
  - intros s w1 H. exact (main_after_dialling budget w w1 s H).
  - intros w1 H. unfold main. unfold bind at 1. now rewrite H.
Qed.

End Endings.

Lemma main_outcomes_witness :
  choose_opponent 20 scenario = (Ok "1f", after (choose_opponent 20) scenario)
  /\ exists addr,
       create_address MYID "1f" = Some addr
       /\ main ticks_diff_wrap 20 scenario =
            match_loop ticks_diff_wrap 20 20 0 0 1
              (set_address (Some (from_bytes_little addr))
                           (after (choose_opponent 20) scenario)).
Proof.
  assert (E : choose_opponent 20 scenario =
              (Ok "1f", after (choose_opponent 20) scenario))
    by (vm_compute; reflexivity).
  split; [ exact E | ].
  destruct (main_outcomes ticks_diff_wrap 20 scenario) as (_ & Hd & _).
  destruct (Hd "1f" _ E) as (addr & Ea & _ & Em).
  exists addr. split; [ exact Ea | exact Em ].
Defined.

(** ** Best of three, in the loops of [main] *)

Section BestOfThree.

Variable ticks_diff : Z -> Z -> Z.

(** The pass that takes the first valid play of a round: the play is
    acknowledged, [resolve] shows its face, and the pass goes on with
    [display_score] on the running score and the current round, then with
    the resend half. *)
Lemma round_body_resolving (l : Locals) (w : World) (f : bytes)
      (rest : list (option bytes)) (a b : Move) :
  choice l = symbol a -> resolved l = false ->
  f = move_frame (symbol b) (round_number l) -> String.length f = 2%nat ->
  rx w = Some f :: rest ->
  round_body ticks_diff l w =
    (l1 <- (display_score (your_score l + fst (standard_points a b))
                          (opp_score l + snd (standard_points a b))
                          (round_number l) 3 ;;
            ret (scored l (standard_points a b))) ;;
     resend_if_due ticks_diff l1)
      (shown (Display_show [Img (face_for (standard_points a b))])
             (set_tx (tx w ++ [ack_frame (round_number l)])
                     (set_rx rest w))).
Proof.
  intros Ha Hr -> H2 Hrx.
  destruct (move_frame_shape b _ H2) as (H1 & Hd & Hb).
  assert (Hin : In (slice 0 1 (move_frame (symbol b) (round_number l))) RPS)
    by (rewrite Hb; apply symbol_in_RPS).
  unfold round_body. unfold bind at 1.
  rewrite (parse_message_move _ w _ rest Hrx H2 Hd Hin).
  unfold bind at 1.
  assert (Hf : move_frame (symbol b) (round_number l) =
               String (match b with Rock => "R" | Paper => "P"
                               | Scissors => "S" end)%char
                      (str (round_number l)))
    by (destruct b; reflexivity).
  rewrite Hf.
  rewrite (process_message_play l _ _ _ a b Ha Hr)
    by (destruct b; reflexivity).
  reflexivity.
Qed.

(** One turn of the outer loop of [main]: once the play is chosen and
    sent, the turn is the loop of the round; if that loop returns, the
    outer loop goes on with the scores it returned and the next round
    number, and if it resets the board, so does the match. *)
Lemma match_loop_turn (budget rounds : nat) (your opp r : Z)
      (v v1 v2 v3 : World) (play : bytes) (t : Z) (res : result Locals) :
  choose_play budget
    (shown (Display_scroll ("Your Score: " ++ str your))
           (shown (Display_scroll ("Round: " ++ str r)) v)) = (Ok play, v1) ->
  send_choice play r v1 = (Ok t, v2) ->
  round_loop ticks_diff budget (mkLocals your opp r play t false false)
             (shown (Display_show [Img ALL_CLOCKS]) v2) = (res, v3) ->
  (forall l', res = Ok l' ->
     match_loop ticks_diff budget (S rounds) your opp r v =
     match_loop ticks_diff budget rounds (your_score l') (opp_score l')
                (r + 1) v3)
  /\ (res = Rebooted ->
      match_loop ticks_diff budget (S rounds) your opp r v = (Rebooted, v3)).
Proof.
  intros Hplay Hsend Hloop.
  assert (E : match_loop ticks_diff budget (S rounds) your opp r v =
              ('(mkLocals your' opp' _ _ _ _ _) <-
                 round_loop ticks_diff budget
                   (mkLocals your opp r play t false false) ;;
               match_loop ticks_diff budget rounds your' opp' (r + 1))
                (shown (Display_show [Img ALL_CLOCKS]) v2)).
  { cbn [match_loop]. unfold bind at 1. unfold microbit.display at 1.
    unfold bind at 1. unfold microbit.display at 1.
    unfold bind at 1. unfold shown in Hplay. rewrite Hplay.
    unfold bind at 1. rewrite Hsend.
    unfold bind at 1. unfold microbit.display at 1. reflexivity. }
  rewrite E. unfold bind. rewrite Hloop. split.
  - intros l' ->. now destruct l'.
  - intros ->. reflexivity.
Qed.

(** C7. Best of three, in [main].  When the loop of a round takes the
    first valid play of the opponent, the own play being a move, it
    resolves the round and calls [display_score] with the running score
    and the round number, so that: in round 2 the pass ends in the reset
    exactly when one of the scores has become 2, after "You win!!" if it
    is the local score and "You Lose!" if it is the opponent's, and
    otherwise the pass goes on (to its resend half, the round resolved
    and the points added); in round 3 the pass always ends in the reset,
    after "You win!!", "You Lose!" or "You drew!" as the local score is
    above, below or equal to the opponent's.  On the scores with which a
    match enters round 2, a score has become 2 exactly when it has reached
    2, and the two cannot both be 2.  The loop of round 3 therefore never
    returns and that of round 2 returns only with both scores short of 2;
    and when the loop of a round returns, the outer loop of [main] plays
    the next round with the scores it returned: after round 2, round 3. *)
Theorem best_of_three (l : Locals) (w : World) (f : bytes)
        (rest : list (option bytes)) (a b : Move) :
  choice l = symbol a -> resolved l = false ->
  f = move_frame (symbol b) (round_number l) -> String.length f = 2%nat ->
  rx w = Some f :: rest ->
  let my := your_score l + fst (standard_points a b) in
  let opp := opp_score l + snd (standard_points a b) in
  let resolved_world :=
    shown (Display_show [Img (face_for (standard_points a b))])
          (set_tx (tx w ++ [ack_frame (round_number l)]) (set_rx rest w)) in
  (round_number l = 2 ->
     (fst (round_body ticks_diff l w) = Rebooted <-> my = 2 \/ opp = 2)
     /\ (my = 2 ->
         round_body ticks_diff l w =
           (Rebooted, announced "You win!!" my resolved_world))
     /\ (my <> 2 -> opp = 2 ->
         round_body ticks_diff l w =
           (Rebooted, announced "You Lose!" my resolved_world))
     /\ (my <> 2 -> opp <> 2 ->
         round_body ticks_diff l w =
           resend_if_due ticks_diff (scored l (standard_points a b))
                         (flashed my resolved_world))
     /\ (round_entry ticks_diff (your_score l) (opp_score l) 2 ->
         (my = 2 <-> 2 <= my) /\ (opp = 2 <-> 2 <= opp)
         /\ ~ (my = 2 /\ opp = 2)))
  /\ (round_number l = 3 ->
      fst (round_body ticks_diff l w) = Rebooted
      /\ (my > opp ->
          round_body ticks_diff l w =
            (Rebooted, announced "You win!!" my resolved_world))
      /\ (my < opp ->
          round_body ticks_diff l w =
            (Rebooted, announced "You Lose!" my resolved_world))
      /\ (my = opp ->
          round_body ticks_diff l w =
            (Rebooted, announced "You drew!" my resolved_world)))
  /\ (forall budget l' w',
        round_loop ticks_diff budget l w = (Ok l', w') ->
        round_number l <> 3
        /\ (round_number l = 2 -> your_score l' <> 2 /\ opp_score l' <> 2))
  /\ (forall (budget rounds : nat) (your opp0 r : Z) (v v1 v2 v3 : World)
             (play : bytes) (t : Z) (res : result Locals),
        choose_play budget
          (shown (Display_scroll ("Your Score: " ++ str your))
                 (shown (Display_scroll ("Round: " ++ str r)) v))
          = (Ok play, v1) ->
        send_choice play r v1 = (Ok t, v2) ->
        round_loop ticks_diff budget
                   (mkLocals your opp0 r play t false false)
                   (shown (Display_show [Img ALL_CLOCKS]) v2) = (res, v3) ->
        (forall l', res = Ok l' ->
           match_loop ticks_diff budget (S rounds) your opp0 r v =
           match_loop ticks_diff budget rounds
                      (your_score l') (opp_score l') (r + 1) v3)
        /\ (res = Rebooted ->
            match_loop ticks_diff budget (S rounds) your opp0 r v =
              (Rebooted, v3))).
Proof.
  intros Ha Hr Hf H2 Hrx my opp resolved_world.
  pose proof (round_body_resolving l w f rest a b Ha Hr Hf H2 Hrx) as E.
  fold my opp resolved_world in E.
  split; [ | split; [ | split ] ].
  - intros E2. rewrite E, E2. unfold bind.
    rewrite display_score_round_2.
    destruct (Z.eqb_spec my 2) as [Em | Em];
      [ | destruct (Z.eqb_spec opp 2) as [Eo | Eo] ].
    + split; [ split; auto | ].
      split; [ reflexivity | ].
      split; [ intros K; contradiction | ].
      split; [ intros K; contradiction | ].
      intros Hentry. apply round_entry_scores in Hentry.
      pose proof (standard_points_bounds a b). unfold my, opp in *. lia.
    + split; [ split; auto | ].
      split; [ intros K; contradiction | ].
      split; [ reflexivity | ].
      split; [ intros _ K; contradiction | ].
      intros Hentry. apply round_entry_scores in Hentry.
      pose proof (standard_points_bounds a b). unfold my, opp in *. lia.
    + split; [ split; [ | intros [K | K]; contradiction ] | ].
      { intros K. exfalso.
        change (fst (resend_if_due ticks_diff
                       (scored l (standard_points a b))
                       (flashed my resolved_world)) = Rebooted) in K.
        destruct (resend_if_due_frame ticks_diff _ _ _ _
                    (surjective_pairing
                       (resend_if_due ticks_diff
                          (scored l (standard_points a b))
                          (flashed my resolved_world))))
          as (_ & [P | (l' & P & _)]); rewrite P in K; discriminate K. }
      split; [ intros K; contradiction | ].
      split; [ intros _ K; contradiction | ].
      split; [ reflexivity | ].
      intros Hentry. apply round_entry_scores in Hentry.
      pose proof (standard_points_bounds a b). unfold my, opp in *. lia.
  - intros E3. rewrite E, E3. unfold bind.
    rewrite display_score_round_3.
    destruct (Z.gtb_spec my opp); [ | destruct (Z.gtb_spec opp my) ];
      (split; [ reflexivity | ]);
      (split; [ intros; try reflexivity; lia | ]);
      (split; intros; try reflexivity; lia).
  - intros budget l' w' H. exact (round_loop_returning ticks_diff budget
                                    l l' w w' Hr H).
  - intros budget rounds your opp0 r v v1 v2 v3 play t res.
    apply match_loop_turn.
Qed.

End BestOfThree.

Lemma best_of_three_witness :
  let sweep := mkLocals 1 0 2 "R" 0 false false in
  let level := mkLocals 1 0 2 "P" 0 false false in
  let last := mkLocals 1 0 3 "S" 0 false false in
  round_entry ticks_diff_wrap 1 0 2
  /\ round_body ticks_diff_wrap sweep (hearing [Some "S2"] [10]) =
       (Rebooted,
        announced "You win!!" 2
          (shown (Display_show [Img HAPPY]) (set_tx ["X2"] (hearing [] [10]))))
  /\ (2 = 2 <-> 2 <= 2)
  /\ round_body ticks_diff_wrap level (hearing [Some "P2"] [10]) =
       (Ok (scored level (0, 0)),
        flashed 1 (shown (Display_show [Img ASLEEP])
                         (set_tx ["X2"] silent)))
  /\ round_body ticks_diff_wrap last (hearing [Some "R3"] [10]) =
       (Rebooted,
        announced "You drew!" 1
          (shown (Display_show [Img SAD]) (set_tx ["X3"] (hearing [] [10])))).
Proof.
  intros sweep level last.
  assert (Hentry : round_entry ticks_diff_wrap 1 0 2).
  { exact (entry_next ticks_diff_wrap 0 0 1 2 "R" 0
             (hearing [Some "S1"; Some "X1"] [10])
             (after (round_loop ticks_diff_wrap 2 (fresh_round "R" 1 0))
                    (hearing [Some "S1"; Some "X1"] [10]))
             (acked (scored (fresh_round "R" 1 0) (1, 0)))
             (entry_first ticks_diff_wrap) eq_refl). }
  destruct (best_of_three ticks_diff_wrap sweep (hearing [Some "S2"] [10])
              "S2" [] Rock Scissors eq_refl eq_refl eq_refl eq_refl eq_refl)
    as (Hsweep & _).
  destruct (Hsweep eq_refl) as (_ & Hwin & _ & _ & Hreach).
  destruct (best_of_three ticks_diff_wrap level (hearing [Some "P2"] [10])
              "P2" [] Paper Paper eq_refl eq_refl eq_refl eq_refl eq_refl)
    as (Hlevel & _).
  destruct (Hlevel eq_refl) as (_ & _ & _ & Hon & _).
  destruct (best_of_three ticks_diff_wrap last (hearing [Some "R3"] [10])
              "R3" [] Scissors Rock eq_refl eq_refl eq_refl eq_refl eq_refl)
    as (_ & Hlast & _).
  destruct (Hlast eq_refl) as (_ & _ & _ & Hdraw).
  split; [ exact Hentry | split; [ exact (Hwin eq_refl) | split ] ].
  - exact (proj1 (Hreach Hentry)).
  - split.
    + rewrite Hon; [ reflexivity | discriminate | discriminate ].
    + exact (Hdraw eq_refl).
Defined.
